(** * A file-tree snapshot diff analyzer: the parser, the diff engine and
      their properties.

    The program ([main.py]) reads two textual snapshots of a directory
    tree, turns each into a mapping from slash-joined path to size in
    bytes, and reports the paths that were added, removed or changed in
    size.  This development embeds the program's functions and proves
    properties of them.

    Python values are modelled as follows.
    - [str] is a list of Unicode code points ([N]); [len], slicing and
      [str.replace] count code points, and string ordering compares code
      points.
    - [int] is [Z].
    - [float] is IEEE binary64, through the Standard Library's
      [spec_float] with [prec = 53] and [emax = 1024].
    - an exception is a value of [exn]; fallible code returns [result].
    - a [dict] keyed by strings is a [gmap str Z]; the program only looks
      keys up and sorts the key set, so insertion order plays no role.

    The environment of a run is modelled as follows.
    - The command line is already parsed: [main] takes the two paths.
    - Opening and reading a file gives its decoded text, with newlines
      translated to [\n], or raises ([world]).
    - The two snapshots are read one after the other, each from the
      files as they are at that moment; opening the report for writing,
      each write to it and closing it return or raise, as the system
      has it ([system]).
    - Standard output takes every line that is printed; the lines, the
      status and the report are the outputs of the run ([outcome]).
    - The character classes [\s] and [\d] are those of the Unicode
      database 14.0. *)

From Stdlib Require Import ZArith NArith Lia List Bool String Ascii.
From Stdlib Require Import SpecFloat DecimalString Sorted Permutation.
From stdpp Require Import base decidable option list sorting gmap.

Local Open Scope Z_scope.

(** ** Strings *)

Module Py.

Abbreviation char := N (only parsing).
Abbreviation str := (list N) (only parsing).

(** An ASCII literal as a Python string. *)
Definition lit (s : string) : str :=
  List.map N_of_ascii (list_ascii_of_string s).
Arguments lit s%_string.

(** [str.isspace] on one character, which is also the class [\s] of the
    [re] module on [str] patterns: the code points of the Unicode
    database with bidirectional type WS, B or S, or category Zs. *)
Definition space_ranges : list (N * N) :=
  [ (9, 13); (28, 32); (133, 133); (160, 160); (5760, 5760);
    (8192, 8202); (8232, 8233); (8239, 8239); (8287, 8287);
    (12288, 12288) ]%N.

Definition in_range (c : char) (r : N * N) : bool :=
  (fst r <=? c)%N && (c <=? snd r)%N.

Definition is_space (c : char) : bool := existsb (in_range c) space_ranges.

(** The decimal digits (category Nd, the class [\d] of [re] and the
    characters [float] reads as digits), as the first code points of the
    runs of ten that the Unicode database (14.0) assigns to them; the
    digit's value is its offset in the run. *)
Definition decimal_blocks : list N :=
  [ 48; 1632; 1776; 1984; 2406; 2534; 2662; 2790; 2918; 3046; 3174; 3302;
    3430; 3558; 3664; 3792; 3872; 4160; 4240; 6112; 6160; 6470; 6608; 6784;
    6800; 6992; 7088; 7232; 7248; 42528; 43216; 43264; 43472; 43504; 43600;
    44016; 65296; 66720; 68912; 69734; 69872; 69942; 70096; 70384; 70736;
    70864; 71248; 71360; 71472; 71904; 72016; 72784; 73040; 73120; 92768;
    92864; 93008; 120782; 120792; 120802; 120812; 120822; 123200; 123632;
    125264; 130032 ]%N.

Fixpoint decimal_in (blocks : list N) (c : char) : option Z :=
  match blocks with
  | [] => None
  | b :: bs =>
      if (b <=? c)%N && (c <? b + 10)%N then Some (Z.of_N (c - b))
      else decimal_in bs c
  end.

Definition decimal_value (c : char) : option Z := decimal_in decimal_blocks c.

Definition is_decimal (c : char) : bool :=
  match decimal_value c with Some _ => true | None => false end.

(** Slices [s[:n]] and [s[n:]] are [take n s] and [drop n s]: both
    saturate at the end of the string, as Python's do. *)

(** [s.lstrip()], [s.rstrip()], [s.strip()] and [s.lstrip(' ')]. *)
Fixpoint lstrip_with (p : char -> bool) (s : str) : str :=
  match s with
  | c :: s' => if p c then lstrip_with p s' else s
  | [] => []
  end.

Definition rstrip_with (p : char -> bool) (s : str) : str :=
  rev (lstrip_with p (rev s)).

Definition lstrip (s : str) : str := lstrip_with is_space s.
Definition rstrip (s : str) : str := rstrip_with is_space s.
Definition strip (s : str) : str := rstrip (lstrip s).

Definition SP : char := 32%N.
Definition lstrip_spaces (s : str) : str := lstrip_with (N.eqb SP) s.

(** [s.startswith(p)]. *)
Fixpoint startswith (p s : str) : bool :=
  match p, s with
  | [], _ => true
  | a :: p', b :: s' => (a =? b)%N && startswith p' s'
  | _ :: _, [] => false
  end.

(** [s.replace(old, new)]: the occurrences of [old] are found from left
    to right and do not overlap.  [skip] counts the characters of an
    occurrence that are still to be passed over. *)
Fixpoint replace_from (old new : str) (skip : nat) (s : str) : str :=
  match s with
  | [] => []
  | c :: s' =>
      match skip with
      | S k => replace_from old new k s'
      | O =>
          if startswith old s
          then new ++ replace_from old new (length old - 1) s'
          else c :: replace_from old new 0 s'
      end
  end.

Definition replace (old new s : str) : str :=
  match old with
  | [] => new ++ flat_map (fun c => c :: new) s
  | _ :: _ => replace_from old new 0 s
  end.

(** [sep.join(l)]. *)
Fixpoint join (sep : str) (l : list str) : str :=
  match l with
  | [] => []
  | [x] => x
  | x :: l' => x ++ sep ++ join sep l'
  end.

(** [s.split(sep)] for a one-character separator. *)
Fixpoint split (sep : char) (s : str) : list str :=
  match s with
  | [] => [[]]
  | c :: s' =>
      if (c =? sep)%N then [] :: split sep s'
      else match split sep s' with
           | x :: l => (c :: x) :: l
           | [] => [[c]]
           end
  end.

(** [f.readlines()] on the text of a file: every line keeps its
    terminating newline. *)
Definition NL : char := 10%N.

Fixpoint readlines_from (cur : str) (s : str) : list str :=
  match s with
  | [] => match cur with [] => [] | _ => [cur] end
  | c :: s' =>
      if (c =? NL)%N then (cur ++ [c]) :: readlines_from [] s'
      else readlines_from (cur ++ [c]) s'
  end.

Definition readlines (text : str) : list str := readlines_from [] text.

(** The order [<=] of Python strings: lexicographic on code points, a
    proper prefix first. *)
Fixpoint str_leb (a b : str) : bool :=
  match a, b with
  | [], _ => true
  | _ :: _, [] => false
  | x :: a', y :: b' =>
      if (x <? y)%N then true
      else if (x =? y)%N then str_leb a' b' else false
  end.

Definition str_le (a b : str) : Prop := str_leb a b = true.

#[export] Instance str_le_dec a b : Decision (str_le a b).
Proof. unfold str_le. apply _. Defined.

(** [sorted(keys)] on a list of distinct strings. *)
Definition sorted (l : list str) : list str := merge_sort str_le l.

End Py.
Export Py.

(** ** Exceptions and fallible computations *)

Inductive exn_class :=
  | ValueError | OverflowError | KeyError | OSError | UnicodeDecodeError.

(** An exception: its class and the text [str(e)] gives. *)
Record exn := Exn { exn_kind : exn_class; exn_text : str }.

Inductive result (A : Type) :=
  | Ok (a : A)
  | Raise (e : exn).
Arguments Ok {A} a.
Arguments Raise {A} e.

#[export] Instance result_ret : MRet result := fun A a => Ok a.

#[export] Instance result_bind : MBind result := fun A B k r =>
  match r with
  | Ok a => k a
  | Raise e => Raise e
  end.

(** ** Binary64 floating point *)

Module Float.

Definition prec : Z := 53.
Definition emax : Z := 1024.
Definition float := spec_float.

(** The operations of [spec_float].  Its comparison reads the exponent
    first: it is meant for floats in canonical form, which the results
    of the rounded operations are. *)
Definition mul : float -> float -> float := SFmul prec emax.
Definition div : float -> float -> float := SFdiv prec emax.
Definition leb : float -> float -> bool := SFleb.

(** The least integer whose conversion to [float] overflows: it rounds
    to [2^1024]. *)
Definition int_limit : Z := 2 ^ 1024 - 2 ^ 970.

(** [float(n)] for an [int], also the conversion an arithmetic
    operation or a format applies to an [int] operand: rounded to
    nearest, ties to even. *)
Definition nearest (n : Z) : float := binary_normalize prec emax n 0 false.

Definition of_int (n : Z) : result float :=
  if int_limit <=? Z.abs n
  then Raise (Exn OverflowError (lit "int too large to convert to float"))
  else Ok (nearest n).

(** [int(x)]: truncation toward zero. *)
Definition to_int (x : float) : result Z :=
  match x with
  | S754_zero _ => Ok 0
  | S754_finite s m e =>
      let a := if 0 <=? e then Z.pos m * 2 ^ e else Z.pos m / 2 ^ (- e) in
      Ok (if s then - a else a)
  | S754_infinity _ =>
      Raise (Exn OverflowError (lit "cannot convert float infinity to integer"))
  | S754_nan =>
      Raise (Exn ValueError (lit "cannot convert float NaN to integer"))
  end.

(** The value [m / 10^j] of a decimal literal with digits [m] and [j]
    digits after the point, correctly rounded. *)
Definition of_decimal (m : Z) (j : nat) : float :=
  match m with
  | Z.pos p => div (S754_finite false p 0) (S754_finite false (Z.to_pos (10 ^ Z.of_nat j)) 0)
  | _ => S754_zero false
  end.

(** Digits of a run, most significant first. *)
Fixpoint digits_value (acc : Z) (s : str) : option Z :=
  match s with
  | [] => Some acc
  | c :: s' =>
      match decimal_value c with
      | Some d => digits_value (10 * acc + d) s'
      | None => None
      end
  end.

Definition DOT : char := 46%N.

Fixpoint split_at_dot (s : str) : str * option str :=
  match s with
  | [] => ([], None)
  | c :: s' =>
      if (c =? DOT)%N then ([], Some s')
      else let '(a, b) := split_at_dot s' in (c :: a, b)
  end.

(** A string made of decimal digits and at most one point, with a digit
    somewhere, as digits and scale. *)
Definition decimal_literal (s : str) : option (Z * nat) :=
  let '(ip, fp) := split_at_dot s in
  let fr := match fp with Some f => f | None => [] end in
  match ip ++ fr with
  | [] => None
  | ds => match digits_value 0 ds with
          | Some m => Some (m, length fr)
          | None => None
          end
  end.

Definition quoted (s : str) : str := lit "'" ++ s ++ lit "'".

(** [float(s)] on a string of decimal digits and points, which is all
    the first group of the size pattern can hold. *)
Definition of_str (s : str) : result float :=
  match decimal_literal s with
  | Some (m, j) => Ok (of_decimal m j)
  | None =>
      Raise (Exn ValueError (lit "could not convert string to float: " ++ quoted s))
  end.

(** Rounding [a / b] to the nearest integer, ties to even, for
    [0 <= a] and [0 < b]. *)
Definition div_half_even (a b : Z) : Z :=
  let q := a / b in
  match 2 * (a mod b) ?= b with
  | Lt => q
  | Gt => q + 1
  | Eq => if Z.even q then q else q + 1
  end.

(** Ten times the magnitude [m * 2^e], rounded to an integer. *)
Definition tenths (m : positive) (e : Z) : Z :=
  if 0 <=? e then 10 * Z.pos m * 2 ^ e
  else div_half_even (10 * Z.pos m) (2 ^ (- e)).

Definition decimal_digits (n : Z) : str :=
  lit (DecimalString.NilZero.string_of_uint (N.to_uint (Z.to_N n))).

Definition sign_char (s : bool) : char := if s then 45%N else 43%N.

(** [format(x, '+.1f')]. *)
Definition format_plus_1f (x : float) : str :=
  match x with
  | S754_nan => lit "+nan"
  | S754_infinity s => sign_char s :: lit "inf"
  | S754_zero s => sign_char s :: lit "0.0"
  | S754_finite s m e =>
      let t := tenths m e in
      sign_char s :: decimal_digits (t / 10) ++ [DOT] ++ decimal_digits (t mod 10)
  end.

End Float.

(** ** The size pattern *)

Module Re.

(** A greedy repetition of a character class followed by [k]: the
    longest run is tried first, and a character is given back each time
    the rest of the pattern fails. [taken] is the run so far. *)
Fixpoint greedy {A} (p : char -> bool) (taken s : str)
    (k : str -> str -> option A) : option A :=
  match s with
  | c :: s' =>
      if p c then
        match greedy p (taken ++ [c]) s' k with
        | Some r => Some r
        | None => k taken s
        end
      else k taken s
  | [] => k taken []
  end.

(** An alternation of literals: the first that the input starts with. *)
Fixpoint alternation (toks : list str) (s : str) : option str :=
  match toks with
  | [] => None
  | t :: toks' => if startswith t s then Some t else alternation toks' s
  end.

Definition units : list str :=
  [lit "B"; lit "KB"; lit "MB"; lit "GB"; lit "TB"].

(** The class [[\d.]]. *)
Definition digit_or_dot (c : char) : bool := is_decimal c || (c =? Float.DOT)%N.

(** A match of [([\d.]+)\s*(B|KB|MB|GB|TB)] starting at the head of
    [s]: its two groups. *)
Definition match_here (s : str) : option (str * str) :=
  match s with
  | c :: s' =>
      if digit_or_dot c then
        greedy digit_or_dot [c] s' (fun g1 rest =>
          greedy is_space [] rest (fun _ rest' =>
            match alternation units rest' with
            | Some g2 => Some (g1, g2)
            | None => None
            end))
      else None
  | [] => None
  end.

(** [re.search]: the match at the leftmost position that has one. *)
Fixpoint search (s : str) : option (str * str) :=
  match match_here s with
  | Some g => Some g
  | None => match s with
            | [] => None
            | _ :: s' => search s'
            end
  end.

End Re.

(** ** [parse_size_to_bytes] *)

Definition multipliers : list (str * Z) :=
  [ (lit "B", 1); (lit "KB", 1024); (lit "MB", 1024 ^ 2);
    (lit "GB", 1024 ^ 3); (lit "TB", 1024 ^ 4) ].

Definition str_eqb (a b : str) : bool := bool_decide (a = b).

(** [d[key]] on a dictionary literal. *)
Fixpoint getitem (d : list (str * Z)) (key : str) : result Z :=
  match d with
  | [] => Raise (Exn KeyError (Float.quoted key))
  | (k, v) :: d' => if str_eqb k key then Ok v else getitem d' key
  end.

Definition parse_size_to_bytes (size_str : str) : result Z :=
  match Re.search size_str with
  | None => Ok 0
  | Some (g1, g2) =>
      value ← Float.of_str g1;
      m ← getitem multipliers g2;
      fm ← Float.of_int m;
      Float.to_int (Float.mul value fm)
  end.

(** ** [format_bytes] *)

(** The value of [size_bytes] in [format_bytes]: the [int] it is called
    with, or the [float] a division has left. *)
Inductive number :=
  | Int (n : Z)
  | Flt (x : Float.float).

Definition as_float (v : number) : result Float.float :=
  match v with
  | Int n => Float.of_int n
  | Flt x => Ok x
  end.

Definition f1024 : Float.float := Eval vm_compute in Float.nearest 1024.

(** [size_bytes >= 1024]. *)
Definition ge_1024 (v : number) : bool :=
  match v with
  | Int n => 1024 <=? n
  | Flt x => Float.leb f1024 x
  end.

(** The loop of [format_bytes]: [unit] is [units[i]] and [larger] the
    units after it, so [i < len(units) - 1] is [larger] being non-empty. *)
Fixpoint scale (larger : list str) (v : number) (unit : str)
    : result (number * str) :=
  match larger with
  | u :: larger' =>
      if ge_1024 v then
        x ← as_float v;
        scale larger' (Flt (Float.div x f1024)) u
      else Ok (v, unit)
  | [] => Ok (v, unit)
  end.

Definition format_bytes (size_bytes : Z) : result str :=
  if size_bytes =? 0 then Ok (lit "0 B")
  else
    '(v, unit) ← scale [lit "KB"; lit "MB"; lit "GB"; lit "TB"] (Int size_bytes) (lit "B");
    x ← as_float v;
    Ok (Float.format_plus_1f x ++ [SP] ++ unit).

(** ** [load_snapshot] *)

Definition TEE : str := [9500; 9472; 9472; 32]%N.   (* the glyphs of a child that has later siblings *)
Definition ELL : str := [9492; 9472; 9472; 32]%N.   (* the glyphs of a last child *)
Definition BAR : str := [9474; 32; 32; 32]%N.       (* the glyphs of a continuing ancestor *)
Definition INDENT : str := [SP; SP; SP; SP].
Definition SLASH : str := lit "/".

Definition indent_content (tree_part : str) : str :=
  replace BAR INDENT (replace ELL INDENT (replace TEE INDENT tree_part)).

Definition indent_count (tree_part : str) : nat :=
  ((length (indent_content tree_part)
    - length (lstrip_spaces (indent_content tree_part))) / 4)%nat.

Definition name_of (tree_part : str) : str :=
  strip (replace BAR [] (replace ELL [] (replace TEE [] tree_part))).

Definition size_part (line : str) : str := take 12 line.
Definition tree_part (line : str) : str := rstrip (drop 12 line).

(** The state of the loop over the lines: the path stack and the
    snapshot built so far. *)
Record parser := Parser { path_stack : list str; snapshot : gmap str Z }.

(** The body of the loop, for one line. *)
Definition process_line (st : parser) (line : str) : result parser :=
  match strip line with
  | [] => Ok st
  | _ :: _ =>
      let indent_count := indent_count (tree_part line) in
      let name := name_of (tree_part line) in
      size_bytes ← parse_size_to_bytes (size_part line);
      let path_stack := take indent_count (path_stack st) ++ [name] in
      let full_path := join SLASH path_stack in
      Ok (Parser path_stack (<[full_path := size_bytes]> (snapshot st)))
  end.

Fixpoint process_lines (st : parser) (lines : list str) : result parser :=
  match lines with
  | [] => Ok st
  | line :: lines' =>
      st' ← process_line st line;
      process_lines st' lines'
  end.

(** What a run can read: opening and reading the file at a path gives
    its decoded text or raises. *)
Definition world := str -> result str.

(** The [try] block of [load_snapshot]. *)
Definition read_snapshot (w : world) (file_path : str) : result (gmap str Z) :=
  text ← w file_path;
  st ← process_lines (Parser [] ∅) (drop 2 (readlines text));
  Ok (snapshot st).

(** A computation that may end the process with [sys.exit] after
    printing. *)
Inductive process (A : Type) :=
  | Return (a : A)
  | SysExit (code : Z) (printed : list str).
Arguments Return {A} a.
Arguments SysExit {A} code printed.

Definition error_message (file_path : str) (e : exn) : str :=
  [12456; 12521; 12540; 58; 32; 12501; 12449; 12452; 12523; 12398; 35501;
   12415; 36796; 12415; 12395; 22833; 25943; 12375; 12414; 12375; 12383;
   32; 40]%N ++ file_path ++ lit "): " ++ exn_text e.

Definition load_snapshot (w : world) (file_path : str) : process (gmap str Z) :=
  match read_snapshot w file_path with
  | Ok snapshot => Return snapshot
  | Raise e => SysExit 1 [error_message file_path e]
  end.

(** ** [main] *)

Record changes := Changes {
  added : list (str * Z);
  removed : list (str * Z);
  changed : list (str * Z * Z)
}.

(** [d[path]] on a snapshot. *)
Definition item (d : gmap str Z) (path : str) : result Z :=
  match d !! path with
  | Some v => Ok v
  | None => Raise (Exn KeyError (Float.quoted path))
  end.

Definition all_paths (old_snap new_snap : gmap str Z) : list str :=
  sorted (elements (dom old_snap ∪ dom new_snap)).

(** The body of the loop over [all_paths]. *)
Definition compare_path (old_snap new_snap : gmap str Z) (acc : changes)
    (path : str) : result changes :=
  if bool_decide (path ∉ dom old_snap) then
    s ← item new_snap path;
    Ok (Changes (added acc ++ [(path, s)]) (removed acc) (changed acc))
  else if bool_decide (path ∉ dom new_snap) then
    s ← item old_snap path;
    Ok (Changes (added acc) (removed acc ++ [(path, s)]) (changed acc))
  else
    n ← item new_snap path;
    o ← item old_snap path;
    let diff := n - o in
    if bool_decide (diff ≠ 0) then
      s ← item new_snap path;
      Ok (Changes (added acc) (removed acc) (changed acc ++ [(path, diff, s)]))
    else Ok acc.

Fixpoint compare_paths (old_snap new_snap : gmap str Z) (acc : changes)
    (paths : list str) : result changes :=
  match paths with
  | [] => Ok acc
  | path :: paths' =>
      acc' ← compare_path old_snap new_snap acc path;
      compare_paths old_snap new_snap acc' paths'
  end.

Definition diff (old_snap new_snap : gmap str Z) : result changes :=
  compare_paths old_snap new_snap (Changes [] [] []) (all_paths old_snap new_snap).

(** [Path(p).stem] for a POSIX path: the last component, without its
    last suffix. *)
Definition path_name (p : str) : str :=
  List.last (List.filter (fun c => negb (str_eqb c []) && negb (str_eqb c (lit ".")))
               (split 47%N p)) [].

Fixpoint rfind_from (c : char) (i : nat) (found : option nat) (s : str) : option nat :=
  match s with
  | [] => found
  | x :: s' => rfind_from c (S i) (if (x =? c)%N then Some i else found) s'
  end.

Definition stem (p : str) : str :=
  let name := path_name p in
  match rfind_from Float.DOT 0 None name with
  | Some i => if (0 <? i)%nat && (i <? length name - 1)%nat then take i name else name
  | None => name
  end.

Definition output_name (old_file new_file : str) : str :=
  lit "diff_" ++ stem old_file ++ lit "_vs_" ++ stem new_file ++ lit ".txt".

(** [format(s, '>w')]. *)
Definition rjust (w : nat) (s : str) : str :=
  List.repeat SP (w - length s) ++ s.

Definition decimal (n : nat) : str := Float.decimal_digits (Z.of_nat n).

(** The calls of [f.write], in order; each holds the text written or the
    exception its argument raises. *)
Definition report_writes (old_file new_file : str) (c : changes)
    : list (result str) :=
  [ Ok ([128202; 32; 67; 111; 109; 112; 97; 114; 105; 115; 111; 110; 58; 32]%N
        ++ old_file ++ lit " -> " ++ new_file ++ [NL]);
    Ok (List.repeat 61%N 60 ++ [NL; NL]);
    Ok ([127381; 32; 65; 68; 68; 69; 68; 32; 40]%N
        ++ decimal (length (added c)) ++ lit ")" ++ [NL]);
    Ok (List.repeat 45%N 30 ++ [NL]) ]
  ++ ((fun '(p, s) =>
        b ← format_bytes s;
        Ok (lit "[+" ++ strip b ++ lit "]  " ++ p ++ [NL])) <$> added c)
  ++ [ Ok ([10; 128465; 65039; 32; 82; 69; 77; 79; 86; 69; 68; 32; 40]%N
           ++ decimal (length (removed c)) ++ lit ")" ++ [NL]);
       Ok (List.repeat 45%N 30 ++ [NL]) ]
  ++ ((fun '(p, s) =>
        b ← format_bytes s;
        Ok (lit "[-" ++ strip b ++ lit "]  " ++ p ++ [NL])) <$> removed c)
  ++ [ Ok ([10; 128260; 32; 83; 73; 90; 69; 32; 67; 72; 65; 78; 71; 69; 68; 32; 40]%N
           ++ decimal (length (changed c)) ++ lit ")" ++ [NL]);
       Ok (List.repeat 45%N 30 ++ [NL]) ]
  ++ ((fun '(p, d, s) =>
        bd ← format_bytes d;
        bs ← format_bytes s;
        Ok (lit "[" ++ rjust 10 bd ++ lit "] (Current: " ++ rjust 8 (strip bs)
            ++ lit ")  " ++ p ++ [NL])) <$> changed c).

(** What a run meets outside the program: the files as they are when
    the old snapshot is loaded and when the new one is, and what
    [open(output_name, "w")], the [k]-th call of [f.write] and the
    closing of the report at the end of the [with] block raise, if
    anything. *)
Record system := System {
  old_files : world;
  new_files : world;
  open_report : str -> option exn;
  write_report : nat -> option exn;
  close_report : option exn
}.

(** The calls of [f.write] from the [k]-th on: the text of the calls
    that returned, and the exception that stopped the block if there
    was one, raised by the argument of a call or by the call itself. *)
Fixpoint run_writes (write : nat -> option exn) (k : nat) (ws : list (result str))
    : str * option exn :=
  match ws with
  | [] => ([], None)
  | Raise e :: _ => ([], Some e)
  | Ok s :: ws' =>
      match write k with
      | Some e => ([], Some e)
      | None => let '(t, e) := run_writes write (S k) ws' in (s ++ t, e)
      end
  end.

(** The end of a run: the exit status, the lines printed on standard
    output, the report file the run has opened for writing (its name and
    the text of the writes that returned), and the exception that ended
    the run if one went uncaught. *)
Record outcome := Outcome {
  exit_code : Z;
  stdout : list str;
  report : option (str * str);
  uncaught : option exn
}.

Definition DONE : str :=
  [10024; 32; 24046; 20998; 35299; 26512; 12364; 23436; 20102; 12375;
   12414; 12375; 12383; 65281]%N.
Definition WROTE : str := [128196; 32; 20986; 21147; 32080; 26524; 58; 32]%N.

(** [main], from the parsed command line on.  Nothing after the two
    loads is inside a [try]: an exception there ends the run with a
    traceback and status 1.  An exception raised while the report is
    closed takes the place of the one that stopped the [with] block. *)
Definition main (sys : system) (old_file new_file : str) : outcome :=
  match load_snapshot (old_files sys) old_file with
  | SysExit code printed => Outcome code printed None None
  | Return old_snap =>
  match load_snapshot (new_files sys) new_file with
  | SysExit code printed => Outcome code printed None None
  | Return new_snap =>
  match diff old_snap new_snap with
  | Raise e => Outcome 1 [] None (Some e)
  | Ok c =>
      let output_name := output_name old_file new_file in
      match open_report sys output_name with
      | Some e => Outcome 1 [] None (Some e)
      | None =>
          let '(text, stopped) :=
            run_writes (write_report sys) 0 (report_writes old_file new_file c) in
          match close_report sys, stopped with
          | Some e, _ => Outcome 1 [] (Some (output_name, text)) (Some e)
          | None, Some e => Outcome 1 [] (Some (output_name, text)) (Some e)
          | None, None =>
              Outcome 0 [DONE; WROTE ++ output_name] (Some (output_name, text)) None
          end
      end
  end end end.

(** ** Vocabulary of the statements *)

(** *** The diff *)

(** Strictly ascending order of paths. *)
Definition str_lt (a b : str) : Prop := str_le a b ∧ a ≠ b.

(** The paths of a list of records. *)
Definition paths2 (l : list (str * Z)) : list str := fst <$> l.
Definition paths3 (l : list (str * Z * Z)) : list str := (fun r => fst (fst r)) <$> l.

(** The record, if any, that a path contributes to each list. *)
Definition added_record (old_snap new_snap : gmap str Z) (p : str) : option (str * Z) :=
  match old_snap !! p, new_snap !! p with
  | None, Some s => Some (p, s)
  | _, _ => None
  end.

Definition removed_record (old_snap new_snap : gmap str Z) (p : str) : option (str * Z) :=
  match old_snap !! p, new_snap !! p with
  | Some s, None => Some (p, s)
  | _, _ => None
  end.

Definition changed_record (old_snap new_snap : gmap str Z) (p : str)
    : option (str * Z * Z) :=
  match old_snap !! p, new_snap !! p with
  | Some o, Some n => if bool_decide (n - o ≠ 0) then Some (p, n - o, n) else None
  | _, _ => None
  end.

(** A changed record seen from the other direction: the delta is
    negated and the size is the one before the change. *)
Definition flip_changed (r : str * Z * Z) : str * Z * Z :=
  (r.1.1, - r.1.2, r.2 - r.1.2).

(** *** Size fields *)

(** A literal [<digits>] or [<digits>.<digits>], with its digits read as
    one integer [m] and the number [j] of digits after the point: its
    value is [m / 10^j]. *)
Inductive decimal_form : str -> Z -> nat -> Prop :=
  | form_integer ds m :
      ds <> [] -> Float.digits_value 0 ds = Some m -> decimal_form ds m 0
  | form_fraction ip fp m :
      ip <> [] -> fp <> [] -> Float.digits_value 0 (ip ++ fp) = Some m ->
      decimal_form (ip ++ [Float.DOT] ++ fp) m (length fp).

(** The five unit tokens, each with its multiplier. *)
Inductive unit_multiplier : str -> Z -> Prop :=
  | unit_B : unit_multiplier (lit "B") 1
  | unit_KB : unit_multiplier (lit "KB") 1024
  | unit_MB : unit_multiplier (lit "MB") (1024 ^ 2)
  | unit_GB : unit_multiplier (lit "GB") (1024 ^ 3)
  | unit_TB : unit_multiplier (lit "TB") (1024 ^ 4).

Definition unit_token (tok : str) : Prop := exists mult, unit_multiplier tok mult.

(** [s] begins with an occurrence of the size pattern: a non-empty run
    of digits and points, any whitespace, a unit token. *)
Definition starts_with_size (s : str) : Prop :=
  exists run ws tok rest,
    s = run ++ ws ++ tok ++ rest /\ run <> [] /\
    Forall (fun c => Re.digit_or_dot c = true) run /\
    Forall (fun c => is_space c = true) ws /\ unit_token tok.

(** *** Floats and sizes *)

(** The sign of a float, where it has one. *)
Definition has_sign (s : bool) (x : spec_float) : Prop :=
  match x with
  | S754_zero s' | S754_infinity s' | S754_finite s' _ _ => s' = s
  | S754_nan => False
  end.

(** A float that is zero or has a mantissa of at most 53 bits at an
    exponent of at most [b]. *)
Definition bounded_by (b : Z) (x : spec_float) : Prop :=
  match x with
  | S754_zero _ => True
  | S754_finite _ m e => Z.pos m < 2 ^ 53 /\ e <= b
  | _ => False
  end.

(** A float that is a number: below [2^1024] in magnitude. *)
Definition finite (x : spec_float) : Prop := bounded_by 971 x.

(** What [format_bytes] maintains about [size_bytes]: its sign is [s],
    and as an [int] it is not 0 and converts to [float]. *)
Definition signed (s : bool) (v : number) : Prop :=
  match v with
  | Int n => n <> 0 /\ (n <? 0) = s /\ Z.abs n < Float.int_limit
  | Flt x => has_sign s x
  end.

(** The largest size a snapshot can hold: the largest [float]. *)
Definition max_size : Z := 2 ^ 1024 - 2 ^ 971.


(** *** Tree fields *)

(** One unit of indentation in a tree field: one of the three glyph
    sequences, or four spaces under a last child. *)
Inductive indent_unit := Tee | Ell | Bar | Blank.

Definition unit_text (u : indent_unit) : str :=
  match u with
  | Tee => TEE
  | Ell => ELL
  | Bar => BAR
  | Blank => INDENT
  end.

Definition prefixes (us : list indent_unit) : str := concat (unit_text <$> us).

(** The length of the leading run of spaces, as [indent_count] takes it. *)
Definition leading_spaces (s : str) : nat := (length s - length (lstrip_spaces s))%nat.

(** *** The report *)



Definition headline (old_file new_file : str) : str :=
  [128202; 32]%N ++ lit "Comparison: " ++ old_file ++ lit " -> " ++ new_file ++ [NL]
  ++ List.repeat 61%N 60 ++ [NL] ++ [NL].






(** ** Size decoding as the specification words it

    The first run [<digits>[.<digits>]] that a unit token follows with
    nothing in between; its decimal value times the unit's multiplier,
    truncated; 0 when there is no such run. *)
Module SpecWords.

Definition unit_values : list (str * Z) :=
  [ (lit "B", 1); (lit "KB", 1024); (lit "MB", 1024 ^ 2);
    (lit "GB", 1024 ^ 3); (lit "TB", 1024 ^ 4) ].

Definition unit_then (ip fp rest : str) : option (Z * nat * Z) :=
  match Re.alternation (map fst unit_values) rest with
  | Some tok =>
      match Float.digits_value 0 (ip ++ fp), getitem unit_values tok with
      | Some m, Ok mult => Some (m, length fp, mult)
      | _, _ => None
      end
  | None => None
  end.

Definition match_here (s : str) : option (Z * nat * Z) :=
  match s with
  | c :: s' =>
      if is_decimal c then
        Re.greedy is_decimal [c] s' (fun ip rest =>
          let with_fraction :=
            match rest with
            | d :: f :: rest' =>
                if (d =? Float.DOT)%N && is_decimal f
                then Re.greedy is_decimal [f] rest' (fun fp rest'' => unit_then ip fp rest'')
                else None
            | _ => None
            end in
          match with_fraction with
          | Some r => Some r
          | None => unit_then ip [] rest
          end)
      else None
  | [] => None
  end.

Fixpoint search (s : str) : option (Z * nat * Z) :=
  match match_here s with
  | Some r => Some r
  | None => match s with
            | [] => None
            | _ :: s' => search s'
            end
  end.

Definition size_decoding (size_field : str) : Z :=
  match search size_field with
  | Some (m, j, mult) => (m * mult) / 10 ^ Z.of_nat j
  | None => 0
  end.

End SpecWords.

(** ** Sample inputs *)

Definition HEADER : str := lit "Size        Tree" ++ [NL] ++ lit "----------------" ++ [NL].

(** A snapshot whose one entry has the size field [[ 1.2.3 B ]]. *)
Definition dotted_text : str := HEADER ++ lit "[ 1.2.3 B ] root" ++ [NL].

Definition dotted_world : world := fun _ => Ok dotted_text.

(** A line that is the first under the header although its glyphs put
    it at depth 1. *)
Definition orphan_line : str := lit "[ 512.0 B ] " ++ ELL ++ lit "child" ++ [NL].

(** A line of 8 characters whose size field holds the run [1.2.3]. *)
Definition short_dotted_line : str := lit "1.2.3 B" ++ [NL].

(** Two snapshots: one path unchanged, one grown, one gone, one new. *)
Definition demo_old : gmap str Z :=
  <[lit "root" := 1024]> (<[lit "root/child" := 512]> (<[lit "root/gone" := 7]> ∅)).
Definition demo_new : gmap str Z :=
  <[lit "root" := 1024]> (<[lit "root/child" := 1024]> (<[lit "root/new" := 9]> ∅)).

(** A world without files. *)
Definition missing_error : exn :=
  Exn OSError (lit "[Errno 2] No such file or directory").


(** The two snapshots of the end-to-end example. *)
Definition example_old : str :=
  HEADER ++ lit "[   1.0 KB] root" ++ [NL]
         ++ lit "[ 512.0 B ] " ++ INDENT ++ lit "child" ++ [NL].

Definition example_new : str :=
  HEADER ++ lit "[   1.0 KB] root" ++ [NL]
         ++ lit "[   1.0 KB] " ++ ELL ++ lit "child" ++ [NL].

Definition example_world : world := fun file_path =>
  if str_eqb file_path (lit "old.txt") then Ok example_old
  else if str_eqb file_path (lit "new.txt") then Ok example_new
  else Raise missing_error.

(** A system on which nothing fails: the files of a world, unchanged
    between the two loads, and a report that opens, takes every write
    and closes. *)
Definition quiet_system (w : world) : system :=
  System w w (fun _ => None) (fun _ => None) None.



(** The size field of the documented line [[   1.0 KB] root]: its first
    12 characters. *)
Definition padded_field : str := lit "[   1.0 KB] ".


(** ** Vocabulary of the further properties *)

(** The number of points in a run. *)
Definition dots (s : str) : nat := length (filter (λ c, c = Float.DOT) s).

(** The letter every unit token ends with. *)
Definition LETTER_B : N := 66%N.

(** Whether decoding the text [format_bytes] gives for [n] gives the
    magnitude of [n] back. *)
Definition decodes_back (n : Z) : bool :=
  match format_bytes n with
  | Ok s => match parse_size_to_bytes s with
            | Ok v => v =? Z.abs n
            | Raise _ => false
            end
  | Raise _ => false
  end.

(** The first characters of the three glyph sequences. *)
Definition glyph_heads : list N := [9500; 9492; 9474]%N.

(** A display name of a well-formed tree field: not empty, without
    whitespace at either end, and without any of the characters that
    start a glyph sequence. *)
Definition plain_name (name : str) : Prop :=
  Forall (λ c, c ∉ glyph_heads) name
  ∧ (∃ c, head name = Some c ∧ is_space c = false)
  ∧ (∃ c, last name = Some c ∧ is_space c = false).

(** A line is retained when stripping it leaves something. *)
Definition retained (line : str) : Prop := strip line ≠ [].

#[export] Instance retained_dec (line : str) : Decision (retained line).
Proof. unfold retained. apply _. Defined.

(** The lines under the header that are not blank. *)
Definition retained_lines (lines : list str) : list str := filter retained lines.

(** The size a changed record gives its path. *)
Definition changed_size (r : str * Z * Z) : str * Z := (r.1.1, r.2).

(** A snapshot patched with a report: the added paths with their sizes,
    the changed paths with their current sizes, and the other paths of
    the snapshot that were not removed. *)
Definition patch (old_snap : gmap str Z) (c : changes) : gmap str Z :=
  list_to_map (added c) ∪ list_to_map (changed_size <$> changed c)
  ∪ filter (λ kv, kv.1 ∉ paths2 (removed c)) old_snap.

(** The units [format_bytes] reaches by dividing. *)
Definition larger_units : list str := [lit "KB"; lit "MB"; lit "GB"; lit "TB"].

(** A file name with a last suffix: a base and an extension, neither
    empty, no [/] in either and no point in the extension. *)
Definition file_name (base ext : str) : Prop :=
  base ≠ [] ∧ ext ≠ []
  ∧ Forall (λ c, c ≠ 47%N) base
  ∧ Forall (λ c, c ≠ 47%N ∧ c ≠ Float.DOT) ext.

(** A file name alone or under a directory. *)
Definition in_dir (dir : option str) (name : str) : str :=
  match dir with
  | Some d => d ++ SLASH ++ name
  | None => name
  end.


(** * Properties *)

(** ** The order on paths *)

Section StringOrder.

Lemma str_leb_refl (a : str) : str_leb a a = true.
Proof.
  induction a as [|x a IH]; simpl; [done|].
  rewrite N.ltb_irrefl, N.eqb_refl. exact IH.
Qed.

Lemma str_leb_total (a b : str) : str_leb a b = true ∨ str_leb b a = true.
Proof.
  revert b. induction a as [|x a IH]; intros [|y b]; simpl; auto.
  destruct (N.ltb_spec x y), (N.ltb_spec y x), (N.eqb_spec x y), (N.eqb_spec y x);
    auto; try lia.
Qed.

Lemma str_leb_trans (a b c : str) :
  str_leb a b = true → str_leb b c = true → str_leb a c = true.
Proof.
  revert b c. induction a as [|x a IH]; intros [|y b] [|z c]; simpl; auto; try done.
  destruct (N.ltb_spec x y), (N.ltb_spec y z), (N.ltb_spec x z),
    (N.eqb_spec x y), (N.eqb_spec y z), (N.eqb_spec x z);
    try done; try lia; eauto.
Qed.

Lemma str_leb_antisym (a b : str) :
  str_leb a b = true → str_leb b a = true → a = b.
Proof.
  revert b. induction a as [|x a IH]; intros [|y b]; simpl; auto; try done.
  destruct (N.ltb_spec x y), (N.ltb_spec y x), (N.eqb_spec x y), (N.eqb_spec y x);
    try done; try lia.
  intros. f_equal; auto.
Qed.

#[export] Instance str_le_total : Total str_le.
Proof. intros a b. apply str_leb_total. Qed.

#[export] Instance str_le_trans : Transitive str_le.
Proof. intros a b c. apply str_leb_trans. Qed.

#[export] Instance str_le_antisym : AntiSymm (=) str_le.
Proof. intros a b. apply str_leb_antisym. Qed.

#[export] Instance str_le_refl : Reflexive str_le.
Proof. intros a. apply str_leb_refl. Qed.

(** [str_le] is the lexicographic order: a string is below its
    extensions, and below the strings that have a greater character at
    the first position where the two differ. *)
Lemma str_le_lexicographic (a b : str) :
  str_le a b ↔
    (∃ t, b = a ++ t)
    ∨ (∃ p x y a' b', a = p ++ x :: a' ∧ b = p ++ y :: b' ∧ (x < y)%N).
Proof.
  unfold str_le. revert b. induction a as [|x a IH]; intros b.
  - simpl. split; [intros _; left; by exists b|done].
  - destruct b as [|y b]; simpl.
    + split; [done|]. intros [[t Ht]|(p & x' & y' & a' & b' & _ & Hb & _)]; [done|].
      by destruct p.
    + destruct (N.ltb_spec x y) as [Hlt|Hge].
      * split; [|done]. intros _. right. by exists [], x, y, a, b.
      * destruct (N.eqb_spec x y) as [->|Hne].
        -- rewrite IH. split.
           ++ intros [[t ->]|(p & x' & y' & a' & b' & -> & -> & Hxy)].
              ** left. by exists t.
              ** right. by exists (y :: p), x', y', a', b'.
           ++ intros [[t [= ->]]|(p & x' & y' & a' & b' & Ha & Hb & Hxy)].
              ** left. by exists t.
              ** destruct p as [|c p]; simplify_eq/=; [lia|].
                 right. by exists p, x', y', a', b'.
        -- split; [done|].
           intros [[t [= -> _]]|(p & x' & y' & a' & b' & Ha & Hb & Hxy)]; [done|].
           destruct p as [|c p]; simplify_eq/=; lia.
Qed.

End StringOrder.

(** ** The diff engine *)

Section Diff.

Implicit Types old new : gmap str Z.
Implicit Types path p : str.

Lemma all_paths_perm old new :
  all_paths old new ≡ₚ elements (dom old ∪ dom new).
Proof. apply merge_sort_Permutation. Qed.

Lemma elem_of_all_paths old new p :
  p ∈ all_paths old new ↔ p ∈ dom old ∪ dom new.
Proof. rewrite all_paths_perm. apply elem_of_elements. Qed.

Lemma all_paths_NoDup old new : NoDup (all_paths old new).
Proof. rewrite all_paths_perm. apply NoDup_elements. Qed.

Lemma all_paths_length old new :
  length (all_paths old new) = size (dom old ∪ dom new).
Proof. rewrite all_paths_perm. reflexivity. Qed.

Lemma all_paths_sorted old new : StronglySorted str_le (all_paths old new).
Proof. apply StronglySorted_merge_sort; apply _. Qed.

Lemma all_paths_ascending old new : StronglySorted str_lt (all_paths old new).
Proof.
  pose proof (all_paths_sorted old new) as Hs.
  pose proof (all_paths_NoDup old new) as Hn.
  induction Hs as [|x l Hs IH Hx]; [constructor|].
  apply NoDup_cons in Hn as [Hx' Hn].
  constructor; [auto|].
  rewrite Forall_forall in Hx |- *. intros y Hy. split; [by apply Hx|].
  intros ->. done.
Qed.

Lemma all_paths_comm old new : all_paths new old = all_paths old new.
Proof. unfold all_paths. by rewrite (comm_L (∪) (dom new)). Qed.

(** The loop never raises on paths of the union, and each path adds
    the record its case calls for. *)
Lemma compare_paths_omap old new acc l :
  Forall (λ p, p ∈ dom old ∪ dom new) l →
  compare_paths old new acc l =
    Ok (Changes (added acc ++ omap (added_record old new) l)
                (removed acc ++ omap (removed_record old new) l)
                (changed acc ++ omap (changed_record old new) l)).
Proof.
  intros Hl. revert acc. induction Hl as [|p l Hp Hl IH]; intros acc; simpl.
  - rewrite !app_nil_r. by destruct acc.
  - unfold compare_path, added_record, removed_record, changed_record, item.
    destruct (old !! p) as [o|] eqn:Ho, (new !! p) as [n|] eqn:Hn.
    + rewrite bool_decide_eq_false_2 by (rewrite not_elem_of_dom; congruence).
      rewrite bool_decide_eq_false_2 by (rewrite not_elem_of_dom; congruence).
      simpl. destruct (bool_decide (n - o ≠ 0)); simpl; rewrite IH; simpl;
        by rewrite <- ?app_assoc.
    + rewrite bool_decide_eq_false_2 by (rewrite not_elem_of_dom; congruence).
      rewrite bool_decide_eq_true_2 by (by rewrite not_elem_of_dom).
      simpl. rewrite IH. simpl. by rewrite <- ?app_assoc.
    + rewrite bool_decide_eq_true_2 by (by rewrite not_elem_of_dom).
      simpl. rewrite IH. simpl. by rewrite <- ?app_assoc.
    + exfalso. apply elem_of_union in Hp as [Hp|Hp];
        apply elem_of_dom in Hp as [? ?]; congruence.
Qed.

Lemma diff_omap old new :
  diff old new =
    Ok (Changes (omap (added_record old new) (all_paths old new))
                (omap (removed_record old new) (all_paths old new))
                (omap (changed_record old new) (all_paths old new))).
Proof.
  unfold diff. rewrite compare_paths_omap; [done|].
  apply Forall_forall. intros p. apply elem_of_all_paths.
Qed.

Lemma paths2_omap (f : str → option (str * Z)) l :
  (∀ p r, f p = Some r → r.1 = p) →
  paths2 (omap f l) = filter (λ p, is_Some (f p)) l.
Proof.
  intros Hf. unfold paths2. induction l as [|p l IH]; [done|].
  rewrite filter_cons. simpl. destruct (f p) as [r|] eqn:E.
  - rewrite decide_True by eauto. rewrite fmap_cons. f_equal; [eauto|apply IH].
  - rewrite decide_False by (intros [? ?]; done). done.
Qed.

Lemma paths3_omap (f : str → option (str * Z * Z)) l :
  (∀ p r, f p = Some r → r.1.1 = p) →
  paths3 (omap f l) = filter (λ p, is_Some (f p)) l.
Proof.
  intros Hf. unfold paths3. induction l as [|p l IH]; [done|].
  rewrite filter_cons. simpl. destruct (f p) as [r|] eqn:E.
  - rewrite decide_True by eauto. rewrite fmap_cons. f_equal; [eauto|apply IH].
  - rewrite decide_False by (intros [? ?]; done). done.
Qed.

Lemma added_record_path old new p r : added_record old new p = Some r → r.1 = p.
Proof.
  unfold added_record. destruct (old !! p), (new !! p); intros; simplify_eq; done.
Qed.

Lemma removed_record_path old new p r : removed_record old new p = Some r → r.1 = p.
Proof.
  unfold removed_record. destruct (old !! p), (new !! p); intros; simplify_eq; done.
Qed.

Lemma changed_record_path old new p r : changed_record old new p = Some r → r.1.1 = p.
Proof.
  unfold changed_record. destruct (old !! p), (new !! p); try done.
  case_bool_decide; intros; simplify_eq; done.
Qed.

Lemma StronglySorted_filter {A} (R : relation A) (P : A → Prop)
    `{∀ x, Decision (P x)} (l : list A) :
  StronglySorted R l → StronglySorted R (filter P l).
Proof.
  induction 1 as [|x l Hs IH Hx]; [constructor|].
  rewrite filter_cons. destruct (decide (P x)); [|done].
  constructor; [done|]. rewrite Forall_forall in Hx |- *.
  intros y [_ Hy]%list_elem_of_filter. auto.
Qed.

(** The paths of the three lists, as selections from [all_paths]. *)
Lemma diff_paths old new :
  ∃ c, diff old new = Ok c
    ∧ paths2 (added c) = filter (λ p, is_Some (added_record old new p)) (all_paths old new)
    ∧ paths2 (removed c) = filter (λ p, is_Some (removed_record old new p)) (all_paths old new)
    ∧ paths3 (changed c) = filter (λ p, is_Some (changed_record old new p)) (all_paths old new).
Proof.
  eexists. split; [apply diff_omap|]. simpl. split_and!.
  - apply paths2_omap, added_record_path.
  - apply paths2_omap, removed_record_path.
  - apply paths3_omap, changed_record_path.
Qed.

(** The three cases exclude one another. *)
Lemma records_exclusive old new p :
  (is_Some (added_record old new p) → ¬ is_Some (removed_record old new p))
  ∧ (is_Some (added_record old new p) → ¬ is_Some (changed_record old new p))
  ∧ (is_Some (removed_record old new p) → ¬ is_Some (changed_record old new p)).
Proof.
  unfold added_record, removed_record, changed_record.
  destruct (old !! p), (new !! p); split_and!; intros [? ?] [? ?]; done.
Qed.

Lemma filter_disjoint_length {A} (P Q R : A → Prop)
    `{∀ x, Decision (P x), ∀ x, Decision (Q x), ∀ x, Decision (R x)} (l : list A) :
  (∀ x, P x → ¬ Q x) → (∀ x, P x → ¬ R x) → (∀ x, Q x → ¬ R x) →
  (length (filter P l) + length (filter Q l) + length (filter R l) ≤ length l)%nat.
Proof.
  intros HPQ HPR HQR. induction l as [|x l IH]; [done|].
  rewrite !filter_cons.
  destruct (decide (P x)) as [HP|], (decide (Q x)) as [HQ|], (decide (R x)) as [HR|];
    simpl; try lia.
  - destruct (HPQ x HP HQ).
  - destruct (HPQ x HP HQ).
  - destruct (HPR x HP HR).
  - destruct (HQR x HQ HR).
Qed.

End Diff.

(** C1.  For snapshots [old] and [new] and a path of the union of their
    keys, the diff is produced and the path falls into exactly one of
    four cases: only in [new], it has the record [(path, newSize)] in
    [added]; only in [old], the record [(path, oldSize)] in [removed]; in
    both with equal sizes, no record in any list; in both with different
    sizes, the record [(path, newSize - oldSize, newSize)] in [changed].
    In each case the path occurs in neither of the other lists, and no
    path has two records. *)
Theorem diff_four_cases (old new : gmap str Z) (path : str) :
  path ∈ dom old ∪ dom new →
  ∃ c, diff old new = Ok c
    ∧ NoDup (paths2 (added c) ++ paths2 (removed c) ++ paths3 (changed c))
    ∧ match old !! path, new !! path with
      | None, Some s =>
          (path, s) ∈ added c
          ∧ (path ∉ paths2 (removed c)) ∧ (path ∉ paths3 (changed c))
      | Some s, None =>
          (path, s) ∈ removed c
          ∧ (path ∉ paths2 (added c)) ∧ (path ∉ paths3 (changed c))
      | Some o, Some n =>
          if decide (o = n)
          then (path ∉ paths2 (added c)) ∧ (path ∉ paths2 (removed c))
               ∧ (path ∉ paths3 (changed c))
          else (path, n - o, n) ∈ changed c
               ∧ (path ∉ paths2 (added c)) ∧ (path ∉ paths2 (removed c))
      | None, None => False
      end.
Proof.
  intros Hin.
  destruct (diff_paths old new) as (c & Hc & Ha & Hr & Hch).
  exists c. split; [done|]. split.
  { rewrite Ha, Hr, Hch. pose proof (all_paths_NoDup old new) as Hn.
    pose proof (records_exclusive old new) as Hex.
    rewrite !NoDup_app. split_and!; try by apply NoDup_filter.
    - intros x [H1 _]%list_elem_of_filter [[H2 _]%list_elem_of_filter|[H2 _]%list_elem_of_filter]%elem_of_app;
        destruct (Hex x) as (E1 & E2 & E3); [exact (E1 H1 H2)|exact (E2 H1 H2)].
    - intros x [H1 _]%list_elem_of_filter [H2 _]%list_elem_of_filter.
      destruct (Hex x) as (E1 & E2 & E3). exact (E3 H1 H2). }
  apply elem_of_all_paths in Hin as Hin'.
  assert (Hadd : ∀ r, added_record old new path = Some r → r ∈ added c).
  { intros r E. rewrite diff_omap in Hc. injection Hc as <-. simpl.
    apply list_elem_of_omap. eauto. }
  assert (Hrem : ∀ r, removed_record old new path = Some r → r ∈ removed c).
  { intros r E. rewrite diff_omap in Hc. injection Hc as <-. simpl.
    apply list_elem_of_omap. eauto. }
  assert (Hchg : ∀ r, changed_record old new path = Some r → r ∈ changed c).
  { intros r E. rewrite diff_omap in Hc. injection Hc as <-. simpl.
    apply list_elem_of_omap. eauto. }
  assert (Hna : added_record old new path = None → path ∉ paths2 (added c)).
  { intros E. rewrite Ha. intros [[? ?] _]%list_elem_of_filter. congruence. }
  assert (Hnr : removed_record old new path = None → path ∉ paths2 (removed c)).
  { intros E. rewrite Hr. intros [[? ?] _]%list_elem_of_filter. congruence. }
  assert (Hnc : changed_record old new path = None → path ∉ paths3 (changed c)).
  { intros E. rewrite Hch. intros [[? ?] _]%list_elem_of_filter. congruence. }
  unfold added_record, removed_record, changed_record in *.
  destruct (old !! path) as [o|] eqn:Ho, (new !! path) as [n|] eqn:Hn.
  - destruct (decide (o = n)) as [->|Hne].
    + rewrite bool_decide_eq_false_2 in Hnc by lia. auto.
    + rewrite bool_decide_eq_true_2 in Hchg by lia. auto.
  - auto.
  - auto.
  - apply elem_of_union in Hin as [Hin|Hin];
      apply elem_of_dom in Hin as [? ?]; congruence.
Qed.

Lemma diff_four_cases_witness :
  lit "root/child" ∈ dom demo_old ∪ dom demo_new
  ∧ ∃ c, diff demo_old demo_new = Ok c
      ∧ (lit "root/child", 512, 1024) ∈ changed c.
Proof.
  assert (H : lit "root/child" ∈ dom demo_old ∪ dom demo_new).
  { apply elem_of_union_l, elem_of_dom. eexists. vm_compute. reflexivity. }
  split; [exact H|].
  destruct (diff_four_cases demo_old demo_new (lit "root/child") H) as (c & Hc & _ & Hm).
  exists c. split; [exact Hc|].
  change (demo_old !! lit "root/child") with (Some 512) in Hm.
  change (demo_new !! lit "root/child") with (Some 1024) in Hm.
  simpl in Hm. apply Hm.
Defined.

(** C5.  The diff iterates the sorted union of the two key sets:
    [all_paths] holds exactly the paths of the union, in strictly
    ascending string order, and the loop runs over it.  Hence each of
    the three lists is strictly ascending by path, and their lengths sum
    to at most the size of the union. *)
Theorem diff_lists_sorted (old new : gmap str Z) :
  (∀ p, p ∈ all_paths old new ↔ p ∈ dom old ∪ dom new)
  ∧ StronglySorted str_lt (all_paths old new)
  ∧ diff old new = compare_paths old new (Changes [] [] []) (all_paths old new)
  ∧ ∃ c, diff old new = Ok c
      ∧ StronglySorted str_lt (paths2 (added c))
      ∧ StronglySorted str_lt (paths2 (removed c))
      ∧ StronglySorted str_lt (paths3 (changed c))
      ∧ (length (added c) + length (removed c) + length (changed c)
         ≤ size (dom old ∪ dom new))%nat.
Proof.
  split; [apply elem_of_all_paths|].
  split; [apply all_paths_ascending|].
  split; [reflexivity|].
  destruct (diff_paths old new) as (c & Hc & Ha & Hr & Hch).
  exists c. split; [done|].
  pose proof (all_paths_ascending old new) as Hs.
  split_and!.
  - rewrite Ha. by apply StronglySorted_filter.
  - rewrite Hr. by apply StronglySorted_filter.
  - rewrite Hch. by apply StronglySorted_filter.
  - rewrite <- all_paths_length.
    rewrite <- (length_fmap fst (added c)), <- (length_fmap fst (removed c)).
    rewrite <- (length_fmap (λ r, r.1.1) (changed c)).
    fold (paths2 (added c)) (paths2 (removed c)) (paths3 (changed c)).
    rewrite Ha, Hr, Hch.
    pose proof (records_exclusive old new) as Hex.
    apply filter_disjoint_length; intros x; destruct (Hex x) as (? & ? & ?); auto.
Qed.

Section DiffSwap.

Implicit Types old new : gmap str Z.

Lemma added_record_swap old new p :
  added_record new old p = removed_record old new p.
Proof. unfold added_record, removed_record. by destruct (old !! p), (new !! p). Qed.

Lemma removed_record_swap old new p :
  removed_record new old p = added_record old new p.
Proof. unfold added_record, removed_record. by destruct (old !! p), (new !! p). Qed.

Lemma changed_record_swap old new p :
  changed_record new old p = flip_changed <$> changed_record old new p.
Proof.
  unfold changed_record. destruct (old !! p) as [o|], (new !! p) as [n|]; try done.
  destruct (decide (n - o = 0)) as [E|E].
  - rewrite !bool_decide_eq_false_2 by lia. done.
  - rewrite !bool_decide_eq_true_2 by lia. unfold flip_changed. simpl.
    do 2 f_equal; [f_equal|]; lia.
Qed.

Lemma omap_fmap_option {A B C} (f : A → option B) (g : B → C) (l : list A) :
  omap (λ x, g <$> f x) l = g <$> omap f l.
Proof.
  induction l as [|x l IH]; [done|]. simpl.
  destruct (f x); simpl; [f_equal|]; apply IH.
Qed.

Lemma changed_record_size old new p r :
  changed_record old new p = Some r → new !! r.1.1 = Some r.2.
Proof.
  unfold changed_record. destruct (old !! p) as [o|], (new !! p) as [n|] eqn:E; try done.
  case_bool_decide; intros; simplify_eq. done.
Qed.

End DiffSwap.

(** C6.  Swapping the two snapshots exchanges the added and the removed
    lists, record for record, and turns every changed record
    [(p, delta, size)] into [(p, - delta, size - delta)]; in either
    direction the size a changed record reports is the one the path has
    in the snapshot passed as the new one. *)
Theorem diff_swap (old new : gmap str Z) :
  ∃ c c', diff old new = Ok c ∧ diff new old = Ok c'
    ∧ removed c' = added c
    ∧ added c' = removed c
    ∧ changed c' = flip_changed <$> changed c
    ∧ Forall (λ r, new !! r.1.1 = Some r.2) (changed c)
    ∧ Forall (λ r, old !! r.1.1 = Some r.2) (changed c').
Proof.
  do 2 eexists. split; [apply diff_omap|]. split; [apply diff_omap|]. simpl.
  rewrite (all_paths_comm old new). split_and!.
  - apply list_omap_ext, Forall2_same_length_lookup_2; [done|].
    intros i x y Hx Hy. simplify_eq. apply removed_record_swap.
  - apply list_omap_ext, Forall2_same_length_lookup_2; [done|].
    intros i x y Hx Hy. simplify_eq. apply added_record_swap.
  - rewrite <- omap_fmap_option.
    apply list_omap_ext, Forall2_same_length_lookup_2; [done|].
    intros i x y Hx Hy. simplify_eq. apply changed_record_swap.
  - apply Forall_forall. intros r (p & _ & Hr)%list_elem_of_omap.
    by eapply changed_record_size.
  - apply Forall_forall. intros r (p & _ & Hr)%list_elem_of_omap.
    by eapply changed_record_size.
Qed.

(** ** Size decoding *)

Section Characters.

Lemma decimal_in_None (bs : list N) (c : N) :
  Forall (λ b, (c < b ∨ b + 10 ≤ c)%N) bs → decimal_in bs c = None.
Proof.
  induction 1 as [|b bs Hb _ IH]; [done|]. simpl.
  destruct (N.leb_spec b c), (N.ltb_spec c (b + 10)); simpl; try done; lia.
Qed.

Lemma is_space_ranges (c : N) :
  is_space c = true →
  (9 ≤ c ≤ 13 ∨ 28 ≤ c ≤ 32 ∨ c = 133 ∨ c = 160 ∨ c = 5760 ∨ 8192 ≤ c ≤ 8202
   ∨ 8232 ≤ c ≤ 8233 ∨ c = 8239 ∨ c = 8287 ∨ c = 12288)%N.
Proof.
  unfold is_space, space_ranges, in_range. simpl.
  rewrite !orb_true_iff, !andb_true_iff, !N.leb_le. lia.
Qed.

Lemma space_not_digit_or_dot (c : N) :
  is_space c = true → Re.digit_or_dot c = false.
Proof.
  intros H%is_space_ranges. unfold Re.digit_or_dot, is_decimal, decimal_value.
  rewrite decimal_in_None.
  - simpl. apply N.eqb_neq. unfold Float.DOT. lia.
  - unfold decimal_blocks. repeat (constructor; [lia|]). constructor.
Qed.

Lemma digit_or_dot_not_space (c : N) :
  Re.digit_or_dot c = true → is_space c = false.
Proof.
  intros H. destruct (is_space c) eqn:E; [|done].
  apply space_not_digit_or_dot in E. congruence.
Qed.

(** A unit token starts with a letter that is neither in [[\d.]] nor
    whitespace, and it is the alternative the alternation takes. *)
Lemma unit_head (tok : str) :
  In tok Re.units →
  ∃ c tok', tok = c :: tok' ∧ Re.digit_or_dot c = false ∧ is_space c = false.
Proof.
  unfold Re.units. simpl.
  intros [<-|[<-|[<-|[<-|[<-|[]]]]]]; do 2 eexists; (split; [reflexivity|]);
    split; vm_compute; reflexivity.
Qed.

Lemma startswith_app (p s : str) : startswith p (p ++ s) = true.
Proof. induction p as [|c p IH]; [done|]. simpl. by rewrite N.eqb_refl. Qed.

Lemma startswith_inv (p s : str) : startswith p s = true → ∃ r, s = p ++ r.
Proof.
  revert s. induction p as [|c p IH]; intros s; [by exists s|].
  destruct s as [|d s]; [done|]. simpl.
  intros [->%N.eqb_eq [r ->]%IH]%andb_true_iff. by exists r.
Qed.

Lemma alternation_unit (tok rest : str) :
  In tok Re.units → Re.alternation Re.units (tok ++ rest) = Some tok.
Proof.
  unfold Re.units. simpl. intros [<-|[<-|[<-|[<-|[<-|[]]]]]]; reflexivity.
Qed.

Lemma alternation_inv (toks : list str) (s tok : str) :
  Re.alternation toks s = Some tok → In tok toks ∧ ∃ r, s = tok ++ r.
Proof.
  induction toks as [|t toks IH]; [done|]. simpl.
  destruct (startswith t s) eqn:E.
  - intros [= <-]. split; [by left|]. by apply startswith_inv.
  - intros [? ?]%IH. split; [by right|done].
Qed.

End Characters.

Section Pattern.

Context {A : Type}.
Implicit Types (p : N → bool) (k : str → str → option A).

(** A run that the class accepts whole and that ends where the class
    rejects the next character is what the repetition takes, when the
    rest of the pattern then succeeds. *)
Lemma greedy_exact p (taken a b : str) k (r : A) :
  Forall (λ c, p c = true) a →
  match b with [] => True | c :: _ => p c = false end →
  k (taken ++ a) b = Some r →
  Re.greedy p taken (a ++ b) k = Some r.
Proof.
  intros Ha Hb. revert taken. induction Ha as [|x a Hx Ha IH]; intros taken Hk.
  - rewrite app_nil_r in Hk. simpl. destruct b as [|c b]; [done|].
    simpl. by rewrite Hb.
  - simpl. rewrite Hx. rewrite IH; [done|]. by rewrite <- app_assoc.
Qed.

(** Whatever the repetition returns, the rest of the pattern returned
    it after a run of the class. *)
Lemma greedy_inv p (taken s : str) k (r : A) :
  Re.greedy p taken s k = Some r →
  ∃ a b, s = a ++ b ∧ Forall (λ c, p c = true) a ∧ k (taken ++ a) b = Some r.
Proof.
  revert taken. induction s as [|c s IH]; intros taken; simpl.
  - intros H. exists [], []. rewrite (app_nil_r taken). split_and!; [done|constructor|done].
  - destruct (p c) eqn:Hc.
    + destruct (Re.greedy p (taken ++ [c]) s k) as [r'|] eqn:E.
      * intros [= ->]. apply IH in E as (a & b & -> & Ha & Hk).
        exists (c :: a), b. rewrite <- app_assoc in Hk. split_and!; [done| |done].
        by constructor.
      * intros H. exists [], (c :: s). rewrite (app_nil_r taken). split_and!; [done|constructor|done].
    + intros H. exists [], (c :: s). rewrite (app_nil_r taken). split_and!; [done|constructor|done].
Qed.

End Pattern.

Section Units.

(** The tokens and multipliers of the statements are those of the
    pattern and of the dictionary. *)
Lemma unit_multiplier_table (tok : str) (mult : Z) :
  unit_multiplier tok mult ↔ In (tok, mult) multipliers.
Proof.
  split.
  - intros []; unfold multipliers; simpl; tauto.
  - unfold multipliers. simpl.
    intros [[= <- <-]|[[= <- <-]|[[= <- <-]|[[= <- <-]|[[= <- <-]|[]]]]]];
      constructor.
Qed.

Lemma unit_token_units (tok : str) : unit_token tok ↔ In tok Re.units.
Proof.
  split.
  - intros [mult []]; unfold Re.units; simpl; tauto.
  - unfold Re.units. simpl.
    intros [<-|[<-|[<-|[<-|[<-|[]]]]]]; eexists; constructor.
Qed.

End Units.

Section Search.

Lemma match_here_complete (run ws tok rest : str) :
  run ≠ [] →
  Forall (λ c, Re.digit_or_dot c = true) run →
  Forall (λ c, is_space c = true) ws →
  In tok Re.units →
  Re.match_here (run ++ ws ++ tok ++ rest) = Some (run, tok).
Proof.
  intros Hne Hrun Hws Htok.
  destruct run as [|c run]; [done|]. apply Forall_cons in Hrun as [Hc Hrun].
  change ((c :: run) ++ ws ++ tok ++ rest) with (c :: (run ++ ws ++ tok ++ rest)).
  unfold Re.match_here. rewrite Hc.
  apply greedy_exact; [done| |].
  - destruct (unit_head tok Htok) as (u & tok' & -> & Hu1 & Hu2).
    destruct ws as [|w ws]; simpl; [done|].
    apply Forall_cons in Hws as [Hw _]. by apply space_not_digit_or_dot.
  - apply (greedy_exact _ [] ws); [done| |].
    + destruct (unit_head tok Htok) as (u & tok' & -> & Hu1 & Hu2). done.
    + by rewrite alternation_unit.
Qed.

Lemma match_here_sound (s g1 g2 : str) :
  Re.match_here s = Some (g1, g2) → starts_with_size s.
Proof.
  destruct s as [|c s]; [done|]. unfold Re.match_here.
  destruct (Re.digit_or_dot c) eqn:Hc; [|done].
  intros (a & b & -> & Ha & H)%greedy_inv.
  apply greedy_inv in H as (ws & b' & -> & Hws & Hk). cbv beta in Hk.
  destruct (Re.alternation Re.units b') as [tok|] eqn:E; [|discriminate Hk].
  apply alternation_inv in E as (Htok & rest & ->).
  apply unit_token_units in Htok.
  exists (c :: a), ws, tok, rest. split_and!; auto.
Qed.

Lemma search_cons (c : N) (s : str) :
  Re.search (c :: s) =
    match Re.match_here (c :: s) with Some g => Some g | None => Re.search s end.
Proof. reflexivity. Qed.

(** [re.search] returns the match at the first position that has one. *)
Lemma search_first (pre m : str) (g : str * str) :
  (∀ i, (i < length pre)%nat → ¬ starts_with_size (drop i (pre ++ m))) →
  Re.match_here m = Some g →
  Re.search (pre ++ m) = Some g.
Proof.
  intros Hpre Hm. induction pre as [|c pre IH].
  - simpl. destruct m; simpl in *; by rewrite Hm.
  - change ((c :: pre) ++ m) with (c :: (pre ++ m)). rewrite search_cons.
    destruct (Re.match_here (c :: pre ++ m)) as [[g1 g2]|] eqn:E.
    + apply match_here_sound in E. destruct (Hpre 0%nat); [simpl; lia|done].
    + apply IH. intros i Hi. apply (Hpre (S i)). simpl. lia.
Qed.

Lemma search_none (s : str) :
  (∀ i, ¬ starts_with_size (drop i s)) → Re.search s = None.
Proof.
  induction s as [|c s IH]; intros H.
  - reflexivity.
  - rewrite search_cons. destruct (Re.match_here (c :: s)) as [[g1 g2]|] eqn:E.
    + apply match_here_sound in E. destruct (H 0%nat). done.
    + apply IH. intros i. apply (H (S i)).
Qed.

Lemma search_some (s : str) (g : str * str) :
  Re.search s = Some g → ∃ i, starts_with_size (drop i s).
Proof.
  induction s as [|c s IH].
  - done.
  - rewrite search_cons. destruct (Re.match_here (c :: s)) as [[g1 g2]|] eqn:E.
    + intros _. exists 0%nat. by eapply match_here_sound.
    + intros [i Hi]%IH. by exists (S i).
Qed.

End Search.

(** ** Binary64 rounding *)

Section Rounding.

Local Abbreviation fexp := (fexp Float.prec Float.emax).
Local Abbreviation shr_fexp := (shr_fexp Float.prec Float.emax).
Local Abbreviation round_aux := (binary_round_aux Float.prec Float.emax).

Lemma fexp_eq (x : Z) : fexp x = Z.max (x - 53) (-1074).
Proof. reflexivity. Qed.

Lemma digits2_size (p : positive) : digits2_pos p = Pos.size p.
Proof. induction p as [p IH|p IH|]; simpl; by rewrite ?IH. Qed.

Lemma Zdigits2_nonneg (m : Z) : 0 ≤ Zdigits2 m.
Proof. destruct m; simpl; lia. Qed.

Lemma Zdigits2_gt (m : Z) : 0 ≤ m → m < 2 ^ Zdigits2 m.
Proof.
  destruct m as [|p|p]; simpl; [lia| |lia]. intros _.
  rewrite digits2_size. pose proof (Pos.size_gt p) as H.
  rewrite <- Pos2Z.inj_pow. lia.
Qed.

Lemma Zdigits2_le (m : Z) : 0 < m → 2 ^ (Zdigits2 m - 1) ≤ m.
Proof.
  destruct m as [|p|p]; simpl; [lia| |lia]. intros _.
  rewrite digits2_size. pose proof (Pos.size_le p) as H.
  assert (Z.pos (2 ^ Pos.size p) ≤ Z.pos p~0) as H' by lia.
  rewrite Pos2Z.inj_pow in H'.
  replace (Z.pos (Pos.size p)) with (Z.succ (Z.pos (Pos.size p) - 1)) in H' by lia.
  rewrite Z.pow_succ_r in H' by lia. lia.
Qed.

(** A bound on a number bounds its digit count. *)
Lemma Zdigits2_bound (m k : Z) : 0 ≤ m → 0 ≤ k → m < 2 ^ k → Zdigits2 m ≤ k.
Proof.
  intros Hm Hk Hlt. destruct (Z.eq_dec m 0) as [->|Hne]; [simpl; lia|].
  pose proof (Zdigits2_le m ltac:(lia)) as H.
  destruct (Z.le_gt_cases (Zdigits2 m) k) as [|Hgt]; [done|].
  assert (2 ^ k ≤ 2 ^ (Zdigits2 m - 1)) by (apply Z.pow_le_mono_r; lia). lia.
Qed.

Lemma shr_1_m (mrs : shr_record) :
  0 ≤ shr_m mrs → shr_m (shr_1 mrs) = shr_m mrs / 2.
Proof.
  destruct mrs as [m r s]. simpl. intros Hm.
  destruct m as [|[p|p|]|p]; simpl; try reflexivity; try lia.
  - apply Z.div_unique with 1; lia.
  - apply Z.div_unique with 0; lia.
Qed.

Lemma iter_shr_1_m (p : positive) (mrs : shr_record) :
  0 ≤ shr_m mrs → shr_m (SpecFloat.iter_pos shr_1 p mrs) = shr_m mrs / 2 ^ Z.pos p.
Proof.
  revert mrs. induction p as [p IH|p IH|]; intros mrs Hm; simpl SpecFloat.iter_pos.
  - assert (0 ≤ shr_m (shr_1 mrs)) by (rewrite shr_1_m by done; apply Z.div_pos; lia).
    assert (0 ≤ shr_m (SpecFloat.iter_pos shr_1 p (shr_1 mrs)))
      by (rewrite IH by done; apply Z.div_pos; lia).
    rewrite !IH, shr_1_m by done.
    rewrite !Z.div_div by lia. f_equal.
    rewrite Pos2Z.inj_xI, Z.pow_add_r, Z.pow_mul_r, Z.pow_2_r by lia.
    change (2 ^ 2) with 4. rewrite <- Z.pow_2_r. change (2 ^ 1) with 2.
    rewrite Z.pow_mul_l. change (2 ^ 2) with 4. lia.
  - assert (0 ≤ shr_m (SpecFloat.iter_pos shr_1 p mrs))
      by (rewrite IH by done; apply Z.div_pos; lia).
    rewrite !IH by done. rewrite Z.div_div by lia. f_equal.
    rewrite Pos2Z.inj_xO. rewrite <- Z.pow_add_r by lia. f_equal. lia.
  - rewrite shr_1_m by done. reflexivity.
Qed.

Lemma shr_record_of_loc_m (m : Z) (l : location) :
  shr_m (shr_record_of_loc m l) = m.
Proof. by destruct l as [|[]]. Qed.

(** What [shr_fexp] returns: a mantissa of at most 53 bits, at the
    exponent the format assigns. *)
Lemma shr_fexp_spec (m e : Z) (l : location) :
  0 ≤ m →
  0 ≤ shr_m (shr_fexp m e l).1 < 2 ^ 53
  ∧ (shr_fexp m e l).2 = Z.max e (fexp (Zdigits2 m + e)).
Proof.
  intros Hm. unfold shr_fexp, SpecFloat.shr_fexp, shr.
  pose proof (Zdigits2_gt m Hm) as Hd. pose proof (Zdigits2_nonneg m) as Hd0.
  rewrite fexp_eq.
  destruct (Z.max (Zdigits2 m + e - 53) (-1074) - e) as [|p|p] eqn:En; simpl.
  - rewrite shr_record_of_loc_m. split; [|lia]. split; [done|].
    assert (2 ^ Zdigits2 m ≤ 2 ^ 53) by (apply Z.pow_le_mono_r; lia). lia.
  - rewrite iter_shr_1_m by (by rewrite shr_record_of_loc_m).
    rewrite shr_record_of_loc_m. split; [|lia]. split; [apply Z.div_pos; lia|].
    apply Z.div_lt_upper_bound; [lia|].
    rewrite <- Z.pow_add_r by lia.
    assert (2 ^ Zdigits2 m ≤ 2 ^ (Z.pos p + 53)) by (apply Z.pow_le_mono_r; lia). lia.
  - rewrite shr_record_of_loc_m. split; [|lia]. split; [done|].
    assert (2 ^ Zdigits2 m ≤ 2 ^ 53) by (apply Z.pow_le_mono_r; lia). lia.
Qed.

Lemma round_nearest_even_bounds (m : Z) (l : location) :
  m ≤ round_nearest_even m l ≤ m + 1.
Proof. destruct l as [|[]]; simpl; try lia. destruct (Z.even m); lia. Qed.

(** Rounding keeps the sign, never gives a NaN, and gives a mantissa of
    at most 53 bits; it overflows only from a high exponent. *)
Lemma round_aux_spec (s : bool) (m e : Z) (l : location) :
  0 ≤ m →
  has_sign s (round_aux s m e l)
  ∧ (∀ b, Z.max (Z.max e (Zdigits2 m + e - 53)) (-1074) < b → b ≤ 971 →
       bounded_by b (round_aux s m e l))
  ∧ (∀ s' m' e', round_aux s m e l = S754_finite s' m' e' →
       Z.pos m' < 2 ^ 53 ∧ e' ≤ 971).
Proof.
  intros Hm. unfold round_aux, binary_round_aux.
  destruct (shr_fexp_spec m e l Hm) as [[H1 H2] H3].
  destruct (shr_fexp m e l) as [mrs1 e1] eqn:E1. simpl in H1, H2, H3.
  pose proof (round_nearest_even_bounds (shr_m mrs1) (loc_of_shr_record mrs1)) as Hr.
  set (m1 := round_nearest_even (shr_m mrs1) (loc_of_shr_record mrs1)) in *.
  destruct (shr_fexp_spec m1 e1 loc_Exact ltac:(lia)) as [[H4 H5] H6].
  destruct (shr_fexp m1 e1 loc_Exact) as [mrs2 e2] eqn:E2. simpl in H4, H5, H6.
  assert (Zdigits2 m1 ≤ 54) as Hd1 by (apply Zdigits2_bound; lia).
  rewrite fexp_eq in H3, H6.
  destruct (shr_m mrs2) as [|p|p] eqn:Em; [| |lia].
  - simpl. split_and!; [done|done|done].
  - destruct (Z.leb_spec e2 (Float.emax - Float.prec)) as [Hle|Hgt];
      unfold Float.emax, Float.prec in *; simpl.
    + split_and!; [done| |].
      * intros b Hb1 Hb2. lia.
      * intros s' m' e' [= <- <- <-]. lia.
    + split_and!; [done| |done]. intros b Hb1 Hb2. lia.
Qed.

Lemma div_eucl_quotient (a b q r : Z) : Z.div_eucl a b = (q, r) → q = a / b.
Proof. intros E. unfold Z.div. by rewrite E. Qed.

(** Dividing a float that has the sign [+] by a positive number. *)
Lemma div_sign (x : spec_float) (my : positive) (ey : Z) :
  has_sign false x → has_sign false (Float.div x (S754_finite false my ey)).
Proof.
  destruct x as [s|s| |s mx ex]; simpl; intros Hs; subst; try done.
  unfold SFdiv_core_binary.
  match goal with |- context [Z.div_eucl ?a ?b] =>
    destruct (Z.div_eucl a b) as [q r] eqn:E; apply div_eucl_quotient in E;
    assert (0 ≤ a) as Ha
  end.
  { destruct (_ - _ - _) eqn:Es; try lia. rewrite Z.shiftl_mul_pow2 by lia. lia. }
  apply round_aux_spec. subst q. apply Z.div_pos; lia.
Qed.

(** Multiplying a float that has the sign [+] by a positive number. *)
Lemma mul_sign (x : spec_float) (my : positive) (ey : Z) :
  has_sign false x → has_sign false (Float.mul x (S754_finite false my ey)).
Proof.
  destruct x as [s|s| |s mx ex]; simpl; intros Hs; subst; try done.
  simpl. apply round_aux_spec. lia.
Qed.

(** A product is a float, or overflows to an infinity. *)
Lemma mul_finite_or_inf (x : spec_float) (my : positive) (ey : Z) :
  has_sign false x →
  finite (Float.mul x (S754_finite false my ey))
  ∨ Float.mul x (S754_finite false my ey) = S754_infinity false.
Proof.
  intros Hx. pose proof (mul_sign x my ey Hx) as Hs.
  destruct x as [s|s| |s mx ex]; simpl in *; try done.
  - by left.
  - right. by subst.
  - subst s. simpl in *.
    destruct (round_aux_spec false (Z.pos (mx * my)) (ex + ey) loc_Exact ltac:(lia))
      as (_ & _ & H).
    destruct (binary_round_aux _ _ _ _ _ _) as [s'|s'| |s' m' e'] eqn:E; simpl in *.
    + by left.
    + right. by subst.
    + done.
    + left. by eapply H.
Qed.

Lemma of_decimal_sign (m : Z) (j : nat) : has_sign false (Float.of_decimal m j).
Proof.
  unfold Float.of_decimal. destruct m; try done.
  by apply div_sign.
Qed.

(** Truncating a float with the sign [+]. *)
Lemma to_int_finite (x : spec_float) :
  has_sign false x → finite x →
  ∃ v, Float.to_int x = Ok v ∧ 0 ≤ v ≤ 2 ^ 1024 - 2 ^ 971.
Proof.
  destruct x as [s|s| |s m e]; simpl; try done.
  - intros _ _. exists 0. split; [done|]. lia.
  - intros -> [Hm He]. eexists. split; [reflexivity|].
    destruct (Z.leb_spec 0 e).
    + split; [lia|].
      assert (2 ^ e ≤ 2 ^ 971) by (apply Z.pow_le_mono_r; lia).
      assert (0 < 2 ^ e) by (apply Z.pow_pos_nonneg; lia).
      replace (2 ^ 1024 - 2 ^ 971) with ((2 ^ 53 - 1) * 2 ^ 971)
        by (rewrite Z.mul_sub_distr_r, <- Z.pow_add_r by lia; simpl (53 + 971); lia).
      apply Z.mul_le_mono_nonneg; lia.
    + assert (0 < 2 ^ (- e)) by (apply Z.pow_pos_nonneg; lia).
      split; [apply Z.div_pos; lia|].
      assert (Z.pos m / 2 ^ (- e) ≤ Z.pos m) by (apply Z.div_le_upper_bound; nia).
      assert (2 ^ 53 ≤ 2 ^ 1024 - 2 ^ 971); [|lia].
      replace (2 ^ 1024 - 2 ^ 971) with ((2 ^ 53 - 1) * 2 ^ 971)
        by (rewrite Z.mul_sub_distr_r, <- Z.pow_add_r by lia; simpl (53 + 971); lia).
      change (2 ^ 971) with (2 ^ 1 * 2 ^ 970).
      assert (0 < 2 ^ 970) by (apply Z.pow_pos_nonneg; lia).
      change (2 ^ 53) with 9007199254740992 in *. change (2 ^ 1) with 2. nia.
Qed.

End Rounding.

Section Literals.

Lemma decimal_value_range (c : N) (d : Z) : decimal_value c = Some d → 0 ≤ d < 10.
Proof.
  unfold decimal_value. generalize decimal_blocks. intros bs.
  induction bs as [|b bs IH]; [done|]. simpl.
  destruct (N.leb_spec b c), (N.ltb_spec c (b + 10)); simpl; try done.
  intros [= <-]. lia.
Qed.

Lemma digits_value_decimal (acc : Z) (ds : str) (m : Z) :
  Float.digits_value acc ds = Some m → Forall (λ c, is_decimal c = true) ds.
Proof.
  revert acc. induction ds as [|c ds IH]; intros acc; [constructor|]. simpl.
  destruct (decimal_value c) as [d|] eqn:E; [|done].
  intros H. constructor; [|by eapply IH]. unfold is_decimal. by rewrite E.
Qed.

Lemma digits_value_bounds (acc : Z) (ds : str) (m : Z) :
  0 ≤ acc → Float.digits_value acc ds = Some m →
  acc * 10 ^ Z.of_nat (length ds) ≤ m < (acc + 1) * 10 ^ Z.of_nat (length ds).
Proof.
  revert acc. induction ds as [|c ds IH]; intros acc Hacc; simpl.
  - intros [= <-]. lia.
  - destruct (decimal_value c) as [d|] eqn:E; [|done].
    apply decimal_value_range in E. intros H%IH; [|lia].
    rewrite Nat2Z.inj_succ, Z.pow_succ_r by lia.
    assert (0 < 10 ^ Z.of_nat (length ds)) by (apply Z.pow_pos_nonneg; lia). nia.
Qed.

Lemma decimal_not_dot (c : N) : is_decimal c = true → (c =? Float.DOT)%N = false.
Proof.
  intros H. apply N.eqb_neq. intros ->. vm_compute in H. done.
Qed.

Lemma decimal_digit_or_dot (c : N) : is_decimal c = true → Re.digit_or_dot c = true.
Proof. unfold Re.digit_or_dot. by intros ->. Qed.

Lemma split_at_dot_digits (ds : str) :
  Forall (λ c, is_decimal c = true) ds → Float.split_at_dot ds = (ds, None).
Proof.
  induction 1 as [|c ds Hc _ IH]; [done|]. simpl.
  by rewrite (decimal_not_dot c Hc), IH.
Qed.

Lemma split_at_dot_point (ip fp : str) :
  Forall (λ c, is_decimal c = true) ip →
  Float.split_at_dot (ip ++ Float.DOT :: fp) = (ip, Some fp).
Proof.
  induction 1 as [|c ds Hc _ IH]; [done|]. simpl.
  by rewrite (decimal_not_dot c Hc), IH.
Qed.

(** A literal [<digits>[.<digits>]] is a run of the class [[\d.]] that
    [float] accepts, with the value the literal denotes. *)
Lemma decimal_form_literal (num : str) (m : Z) (j : nat) :
  decimal_form num m j →
  num ≠ [] ∧ Forall (λ c, Re.digit_or_dot c = true) num
  ∧ Float.decimal_literal num = Some (m, j)
  ∧ 0 ≤ m < 10 ^ Z.of_nat (length num).
Proof.
  intros [ds m' Hne Hv|ip fp m' Hip Hfp Hv].
  - pose proof (digits_value_decimal _ _ _ Hv) as Hd.
    pose proof (digits_value_bounds 0 _ _ ltac:(lia) Hv) as Hb.
    split_and!; [done| | |lia|lia].
    + eapply Forall_impl; [exact Hd|]. apply decimal_digit_or_dot.
    + unfold Float.decimal_literal. rewrite split_at_dot_digits by done.
      rewrite app_nil_r. destruct ds; [done|]. by rewrite Hv.
  - pose proof (digits_value_decimal _ _ _ Hv) as Hd.
    pose proof (digits_value_bounds 0 _ _ ltac:(lia) Hv) as Hb.
    apply Forall_app in Hd as [Hd1 Hd2].
    split_and!.
    + by destruct ip.
    + apply Forall_app. split; [|constructor; [done|]];
        (eapply Forall_impl; [eassumption|apply decimal_digit_or_dot]).
    + unfold Float.decimal_literal.
      change (ip ++ [Float.DOT] ++ fp) with (ip ++ Float.DOT :: fp).
      rewrite split_at_dot_point by done.
      destruct (ip ++ fp) eqn:E; [by destruct ip|]. by rewrite Hv.
    + lia.
    + assert (length (ip ++ [Float.DOT] ++ fp) = S (length (ip ++ fp))) as ->
        by (rewrite !length_app; simpl; lia).
      rewrite Nat2Z.inj_succ, Z.pow_succ_r by lia.
      assert (0 < 10 ^ Z.of_nat (length (ip ++ fp))) by (apply Z.pow_pos_nonneg; lia).
      lia.
Qed.

Lemma multiplier_float (tok : str) (mult : Z) :
  In (tok, mult) multipliers →
  In tok Re.units ∧ getitem multipliers tok = Ok mult
  ∧ Float.of_int mult = Ok (Float.nearest mult)
  ∧ ∃ my ey, Float.nearest mult = S754_finite false my ey
      ∧ Z.pos my < 2 ^ 53 ∧ -52 ≤ ey ≤ -12.
Proof.
  unfold multipliers. simpl.
  intros [[= <- <-]|[[= <- <-]|[[= <- <-]|[[= <- <-]|[[= <- <-]|[]]]]]];
    (split; [unfold Re.units; simpl; tauto|]);
    (split; [reflexivity|]); (split; [reflexivity|]);
    do 2 eexists; (split; [vm_compute; reflexivity|]); (split; [reflexivity|lia]).
Qed.

End Literals.

Section Magnitude.

Lemma bounded_by_mono (b b' : Z) (x : spec_float) :
  b ≤ b' → bounded_by b x → bounded_by b' x.
Proof. destruct x; simpl; try done. lia. Qed.

(** The float of a literal with fewer than 16 digits is at most about
    its digits' value. *)
Lemma of_decimal_bounded (m : Z) (j : nat) :
  0 ≤ m < 2 ^ 53 → bounded_by 1 (Float.of_decimal m j).
Proof.
  intros Hm. unfold Float.of_decimal. destruct m as [|p|p]; [done| |lia].
  unfold Float.div, SFdiv, SFdiv_core_binary.
  set (e' := Z.min _ _).
  assert (e' ≤ 0) as He' by (unfold e'; lia).
  match goal with |- context [Z.div_eucl ?a ?b] =>
    destruct (Z.div_eucl a b) as [q r] eqn:E; apply div_eucl_quotient in E;
    assert (0 ≤ a < 2 ^ (53 - e')) as Ha; [|assert (0 < b) as Hb by lia]
  end.
  { replace (0 - 0 - e') with (- e') by lia.
    replace (53 - e') with (53 + - e') by lia. rewrite Z.pow_add_r by lia.
    assert (0 < 2 ^ (- e')) by (apply Z.pow_pos_nonneg; lia).
    destruct (- e') as [|s|s] eqn:Es; [simpl in *; lia| |lia].
    rewrite Z.shiftl_mul_pow2 by lia. nia. }
  assert (0 ≤ q < 2 ^ (53 - e')) as Hq.
  { subst q. split; [apply Z.div_pos; lia|].
    apply Z.div_lt_upper_bound; [lia|]. nia. }
  apply round_aux_spec; [lia| |lia].
  assert (Zdigits2 q ≤ 53 - e') by (apply Zdigits2_bound; lia). lia.
Qed.

Lemma mul_bounded (x : spec_float) (my : positive) (ey b : Z) :
  has_sign false x → bounded_by b x → Z.pos my < 2 ^ 53 →
  -1128 < b + ey → b + ey + 54 ≤ 971 →
  bounded_by (b + ey + 54) (Float.mul x (S754_finite false my ey)).
Proof.
  destruct x as [s|s| |s mx ex]; simpl; try done.
  intros -> [Hmx Hex] Hmy Hlo Hhi. simpl.
  apply round_aux_spec; [lia| |lia].
  assert (Zdigits2 (Z.pos (mx * my)) ≤ 106); [|lia].
  apply Zdigits2_bound; [lia|lia|].
  change (2 ^ 106) with (2 ^ 53 * 2 ^ 53). rewrite Pos2Z.inj_mul. nia.
Qed.

End Magnitude.

Lemma bind_Ok {A B} (a : A) (k : A → result B) : (Ok a ≫= k) = k a.
Proof. reflexivity. Qed.

Lemma bind_Raise {A B} (e : exn) (k : A → result B) : (Raise e ≫= k) = Raise e.
Proof. reflexivity. Qed.

Section SizeDecoding.

Lemma starts_with_size_match (s : str) :
  starts_with_size s ↔ is_Some (Re.match_here s).
Proof.
  split.
  - intros (run & ws & tok & rest & -> & Hne & Hrun & Hws & Htok).
    apply unit_token_units in Htok.
    rewrite match_here_complete by done. by eexists.
  - intros [[g1 g2] H]. by eapply match_here_sound.
Qed.

(** Without an occurrence of the pattern the size is 0. *)
Lemma parse_size_no_pattern (s : str) :
  (∀ i, ¬ starts_with_size (drop i s)) → parse_size_to_bytes s = Ok 0.
Proof. intros H. unfold parse_size_to_bytes. by rewrite search_none. Qed.

(** With an occurrence, the size is computed from the first one. *)
Lemma parse_size_at_first (pre num ws tok post : str) (m : Z) (j : nat) (mult : Z) :
  (∀ i, (i < length pre)%nat →
        ¬ starts_with_size (drop i (pre ++ num ++ ws ++ tok ++ post))) →
  decimal_form num m j →
  Forall (λ c, is_space c = true) ws →
  In (tok, mult) multipliers →
  parse_size_to_bytes (pre ++ num ++ ws ++ tok ++ post)
  = Float.to_int (Float.mul (Float.of_decimal m j) (Float.nearest mult)).
Proof.
  intros Hpre (Hne & Hnum & Hlit & _)%decimal_form_literal Hws
    (Htok & Hget & Hof & _)%multiplier_float.
  unfold parse_size_to_bytes.
  rewrite (search_first pre _ (num, tok)); [|done|by apply match_here_complete].
  unfold Float.of_str. rewrite Hlit. rewrite bind_Ok, Hget, bind_Ok, Hof. done.
Qed.

Lemma short_literal_finite (m : Z) (j : nat) (mult : Z) (tok : str) :
  0 ≤ m < 10 ^ 12 → In (tok, mult) multipliers →
  ∃ v, Float.to_int (Float.mul (Float.of_decimal m j) (Float.nearest mult)) = Ok v
       ∧ 0 ≤ v.
Proof.
  intros Hm (_ & _ & _ & my & ey & -> & Hmy & Hey)%multiplier_float.
  assert (bounded_by 1 (Float.of_decimal m j)) as Hb.
  { apply of_decimal_bounded. change (2 ^ 53) with 9007199254740992.
    change (10 ^ 12) with 1000000000000 in Hm. lia. }
  pose proof (of_decimal_sign m j) as Hs.
  destruct (to_int_finite (Float.mul (Float.of_decimal m j) (S754_finite false my ey)))
    as (v & Hv & Hv').
  - by apply mul_sign.
  - eapply bounded_by_mono; [|apply mul_bounded; try done; lia]. lia.
  - exists v. split; [done|lia].
Qed.

End SizeDecoding.

(** C2 (amended).  Size decoding takes the first run of digits and
    points that a unit token follows after optional whitespace.  When
    that run is a literal [<digits>[.<digits>]] of value [m / 10^j], the
    result is the literal's binary64 value times the multiplier of the
    token, 1 for [B], 1024 for [KB], 1024^2 for [MB], 1024^3 for [GB]
    and 1024^4 for [TB], truncated to an integer; in a field of at most
    12 characters that integer always exists and is not negative. *)
Theorem parse_size_first_run (pre num ws tok post : str) (m : Z) (j : nat) (mult : Z) :
  (∀ i, (i < length pre)%nat →
        ¬ starts_with_size (drop i (pre ++ num ++ ws ++ tok ++ post))) →
  decimal_form num m j →
  Forall (λ c, is_space c = true) ws →
  unit_multiplier tok mult →
  parse_size_to_bytes (pre ++ num ++ ws ++ tok ++ post)
  = Float.to_int (Float.mul (Float.of_decimal m j) (Float.nearest mult))
  ∧ ((length (pre ++ num ++ ws ++ tok ++ post) ≤ 12)%nat →
     ∃ v, parse_size_to_bytes (pre ++ num ++ ws ++ tok ++ post) = Ok v ∧ 0 ≤ v).
Proof.
  intros Hpre Hnum Hws Htok%unit_multiplier_table.
  pose proof (parse_size_at_first pre num ws tok post m j mult Hpre Hnum Hws Htok) as H.
  split; [exact H|]. intros Hlen. rewrite H.
  apply (short_literal_finite m j mult tok); [|done].
  apply decimal_form_literal in Hnum as (_ & _ & _ & Hm).
  rewrite !length_app in Hlen.
  assert (10 ^ Z.of_nat (length num) ≤ 10 ^ 12) by (apply Z.pow_le_mono_r; lia).
  lia.
Qed.

Lemma parse_size_first_run_witness :
  length padded_field = 12%nat
  ∧ parse_size_to_bytes padded_field = Ok 1024.
Proof.
  split; [reflexivity|].
  assert (H1 : ∀ i, (i < length (lit "[   "))%nat →
    ¬ starts_with_size (drop i (lit "[   " ++ lit "1.0" ++ lit " " ++ lit "KB" ++ lit "] "))).
  { intros i Hi [g Hg]%starts_with_size_match.
    destruct i as [|[|[|[|i]]]]; [vm_compute in Hg; discriminate Hg ..|].
    simpl in Hi. lia. }
  assert (H2 : decimal_form (lit "1.0") 10 1).
  { apply (form_fraction (lit "1") (lit "0") 10); [discriminate|discriminate|reflexivity]. }
  assert (H3 : Forall (λ c, is_space c = true) (lit " ")).
  { repeat constructor. }
  exact (proj1 (parse_size_first_run _ _ _ _ _ _ _ _ H1 H2 H3 unit_KB)).
Defined.

(** Counterexample to C2 as stated, on the 12 characters of the size
    field of the documented line [[   1.0 KB] root]: read with nothing
    allowed between the number and the unit, the field holds no size
    and decodes to 0, while the program decodes it to 1024. *)
Lemma size_decoding_space_counterexample :
  length padded_field = 12%nat
  ∧ SpecWords.size_decoding padded_field = 0
  ∧ parse_size_to_bytes padded_field = Ok 1024
  ∧ parse_size_to_bytes padded_field ≠ Ok (SpecWords.size_decoding padded_field).
Proof. split_and!; [vm_compute; reflexivity..|vm_compute; discriminate]. Qed.

(** The product is a binary64 product: on this 12-character field it
    differs from the exact decimal product. *)
Example size_decoding_rounding :
  SpecWords.size_decoding (lit "12345678.9TB") = 13574217503338817126
  ∧ parse_size_to_bytes (lit "12345678.9TB") = Ok 13574217503338817536.
Proof. split; vm_compute; reflexivity. Qed.

(** C3.  The size field [[ 1.2.3 B ]] holds a run of digits and points
    followed by a unit, so the pattern matches it; [float] rejects the
    run, the decoding raises [ValueError], and a snapshot with such a
    line ends the run with status 1 and no report. *)
Theorem parse_size_dotted_run_raises :
  parse_size_to_bytes (lit "[ 1.2.3 B ]")
  = Raise (Exn ValueError (lit "could not convert string to float: '1.2.3'"))
  ∧ load_snapshot dotted_world (lit "old.txt")
    = SysExit 1 [error_message (lit "old.txt")
                   (Exn ValueError (lit "could not convert string to float: '1.2.3'"))]
  ∧ (∀ w op wr cl,
       exit_code (main (System dotted_world w op wr cl) (lit "old.txt") (lit "new.txt")) = 1)
  ∧ (∀ w op wr cl,
       report (main (System dotted_world w op wr cl) (lit "old.txt") (lit "new.txt")) = None).
Proof. split_and!; intros; vm_compute; reflexivity. Qed.

(** ** Depth decoding *)

Section Replace.

Implicit Types old new s : str.

Lemma replace_from_skip old new (k : nat) s :
  replace_from old new k s = replace_from old new 0 (drop k s).
Proof.
  revert k. induction s as [|c s IH]; intros [|k]; try done.
  simpl replace_from at 1. rewrite IH. done.
Qed.

(** An occurrence at the head is replaced, and the scan resumes after it. *)
Lemma replace_head (h : N) old new s :
  replace (h :: old) new ((h :: old) ++ s) = new ++ replace (h :: old) new s.
Proof.
  unfold replace. change ((h :: old) ++ s) with (h :: (old ++ s)).
  simpl replace_from at 1.
  rewrite N.eqb_refl, startswith_app. simpl.
  rewrite replace_from_skip, Nat.sub_0_r, drop_app_length. done.
Qed.

(** Characters other than the first of [old] start no occurrence. *)
Lemma replace_other (h : N) old new (pre s : str) :
  Forall (λ c, c ≠ h) pre →
  replace (h :: old) new (pre ++ s) = pre ++ replace (h :: old) new s.
Proof.
  unfold replace. induction 1 as [|c pre Hc _ IH]; [done|].
  simpl. apply N.eqb_neq in Hc. rewrite N.eqb_sym, Hc. simpl. by rewrite IH.
Qed.

End Replace.

Section Depth.

Lemma indent_content_unit (u : indent_unit) (t : str) :
  indent_content (unit_text u ++ t) = INDENT ++ indent_content t.
Proof.
  unfold indent_content.
  assert (Hsp : ∀ h, h ≠ 32%N → Forall (λ c, c ≠ h) INDENT)
    by (intros h Hh; repeat constructor; done).
  destruct u; simpl unit_text; unfold TEE, ELL, BAR.
  - rewrite replace_head.
    rewrite !replace_other by (by apply Hsp). done.
  - rewrite replace_other by (repeat constructor; done).
    rewrite replace_head.
    rewrite replace_other by (by apply Hsp). done.
  - rewrite !replace_other by (repeat constructor; done).
    rewrite replace_head. done.
  - rewrite !replace_other by (by apply Hsp). done.
Qed.

Lemma lstrip_with_length (p : N → bool) (s : str) :
  (length (lstrip_with p s) ≤ length s)%nat.
Proof. induction s as [|c s IH]; simpl; [lia|]. destruct (p c); simpl; lia. Qed.

Lemma leading_spaces_indent (s : str) :
  leading_spaces (INDENT ++ s) = (4 + leading_spaces s)%nat.
Proof.
  unfold leading_spaces. pose proof (lstrip_with_length (N.eqb SP) s).
  change (lstrip_spaces (INDENT ++ s)) with (lstrip_spaces s).
  rewrite length_app. unfold lstrip_spaces. simpl length. lia.
Qed.

(** Each unit of indentation adds one to the depth. *)
Lemma indent_count_unit (u : indent_unit) (t : str) :
  indent_count (unit_text u ++ t) = S (indent_count t).
Proof.
  unfold indent_count. fold (leading_spaces (indent_content (unit_text u ++ t))).
  fold (leading_spaces (indent_content t)).
  rewrite indent_content_unit, leading_spaces_indent.
  change (4 + ?n)%nat with (1 * 4 + n)%nat.
  rewrite Nat.div_add_l by lia. lia.
Qed.

Lemma indent_count_prefixes (us : list indent_unit) (rest : str) :
  indent_count (prefixes us ++ rest) = (length us + indent_count rest)%nat.
Proof.
  induction us as [|u us IH]; [done|].
  unfold prefixes in *.
  change (concat (unit_text <$> u :: us)) with (unit_text u ++ concat (unit_text <$> us)).
  rewrite <- app_assoc, indent_count_unit, IH. done.
Qed.

End Depth.

(** C7.  The depth of a tree field is the length of the leading run of
    spaces, divided by 4, of the field in which each of the three glyph
    sequences has been replaced by 4 spaces.  The three sequences are 4
    characters long and each one adds exactly one to the depth, as four
    spaces do; so two tree fields that differ only in the units of
    indentation used at each level have the same depth. *)
Theorem depth_of_prefixes (us us' : list indent_unit) (rest : str) :
  length us = length us' →
  indent_count (prefixes us ++ rest) = indent_count (prefixes us' ++ rest)
  ∧ indent_count (prefixes us ++ rest) = (length us + indent_count rest)%nat
  ∧ (∀ u t, indent_count (unit_text u ++ t) = S (indent_count t))
  ∧ (∀ u, length (unit_text u) = 4%nat)
  ∧ (∀ t, indent_count t
          = (leading_spaces
               (replace BAR INDENT (replace ELL INDENT (replace TEE INDENT t))) / 4)%nat).
Proof.
  intros Hlen. split_and!.
  - rewrite !indent_count_prefixes. by rewrite Hlen.
  - apply indent_count_prefixes.
  - apply indent_count_unit.
  - by intros [].
  - reflexivity.
Qed.

Lemma depth_of_prefixes_witness :
  length [Bar; Tee] = length [Blank; Ell]
  ∧ indent_count (BAR ++ TEE ++ lit "notes.txt") = indent_count (INDENT ++ ELL ++ lit "notes.txt")
  ∧ indent_count (BAR ++ TEE ++ lit "notes.txt") = 2%nat.
Proof.
  split; [reflexivity|].
  destruct (depth_of_prefixes [Bar; Tee] [Blank; Ell] (lit "notes.txt") eq_refl)
    as (H1 & H2 & _).
  split; [exact H1|exact H2].
Defined.

(** ** Path reconstruction *)

Section Paths.

Lemma split_no_sep (sep : N) (x : str) :
  Forall (λ c, c ≠ sep) x → split sep x = [x].
Proof.
  induction 1 as [|c x Hc _ IH]; [done|]. simpl.
  apply N.eqb_neq in Hc. by rewrite Hc, IH.
Qed.

Lemma split_app_sep (sep : N) (x s : str) :
  Forall (λ c, c ≠ sep) x → split sep (x ++ sep :: s) = x :: split sep s.
Proof.
  induction 1 as [|c x Hc _ IH]; simpl.
  - by rewrite N.eqb_refl.
  - apply N.eqb_neq in Hc. by rewrite Hc, IH.
Qed.

(** Joining with [/] and splitting at [/] gives the segments back when
    no segment holds a [/]. *)
Lemma split_join (l : list str) :
  l ≠ [] → Forall (λ x, Forall (λ c, c ≠ 47%N) x) l →
  split 47 (join SLASH l) = l.
Proof.
  intros Hne Hl. induction Hl as [|x l Hx Hl IH]; [done|].
  destruct l as [|y l].
  - simpl. by apply split_no_sep.
  - change (join SLASH (x :: y :: l)) with (x ++ 47%N :: join SLASH (y :: l)).
    rewrite split_app_sep by done. f_equal. by apply IH.
Qed.

Lemma process_line_retained (st : parser) (line : str) (size_bytes : Z) :
  strip line ≠ [] →
  parse_size_to_bytes (size_part line) = Ok size_bytes →
  process_line st line
  = Ok (Parser (take (indent_count (tree_part line)) (path_stack st)
                ++ [name_of (tree_part line)])
               (<[join SLASH (take (indent_count (tree_part line)) (path_stack st)
                              ++ [name_of (tree_part line)]) := size_bytes]>
                  (snapshot st))).
Proof.
  intros Hne Hsize. unfold process_line.
  destruct (strip line); [done|]. by rewrite Hsize.
Qed.

Lemma process_line_blank (st : parser) (line : str) :
  strip line = [] → process_line st line = Ok st.
Proof. intros H. unfold process_line. by rewrite H. Qed.

Lemma process_line_raises (st : parser) (line : str) (e : exn) :
  strip line ≠ [] →
  parse_size_to_bytes (size_part line) = Raise e →
  process_line st line = Raise e.
Proof.
  intros Hne Hsize. unfold process_line.
  destruct (strip line); [done|]. by rewrite Hsize.
Qed.

(** A retained line of at most 12 characters has an empty tree field:
    its name is empty and its depth 0, so its entry has the key [""]. *)
Lemma short_line_entry (st : parser) (line : str) (size_bytes : Z) :
  strip line ≠ [] → (length line ≤ 12)%nat →
  parse_size_to_bytes line = Ok size_bytes →
  tree_part line = [] ∧ name_of (tree_part line) = []
  ∧ indent_count (tree_part line) = 0%nat
  ∧ process_line st line = Ok (Parser [[]] (<[[] := size_bytes]> (snapshot st))).
Proof.
  intros Hne Hlen Hsize.
  assert (tree_part line = []) as Ht.
  { unfold tree_part. by rewrite drop_ge. }
  split_and!; [done|by rewrite Ht|by rewrite Ht|].
  rewrite (process_line_retained st line size_bytes Hne).
  - by rewrite Ht.
  - unfold size_part. by rewrite take_ge.
Qed.

End Paths.

(** C4 (amended).  For a retained line whose size field decodes, with
    depth [d] and name [n], the parser keeps the first [d] entries of
    the path stack, or all of them when there are fewer than [d], then
    appends [n], and records the stack joined with [/].  After the line
    the stack has [min d len + 1] entries, where [len] was its length:
    [d + 1] when it had at least [d].  The full path has as many
    segments when no entry holds a [/]. *)
Theorem process_line_stack (st : parser) (line : str) (size_bytes : Z) :
  strip line ≠ [] →
  parse_size_to_bytes (size_part line) = Ok size_bytes →
  ∃ st', process_line st line = Ok st'
    ∧ path_stack st'
      = take (indent_count (tree_part line)) (path_stack st) ++ [name_of (tree_part line)]
    ∧ snapshot st' = <[join SLASH (path_stack st') := size_bytes]> (snapshot st)
    ∧ length (path_stack st')
      = S (indent_count (tree_part line) `min` length (path_stack st))
    ∧ ((indent_count (tree_part line) ≤ length (path_stack st))%nat →
       length (path_stack st') = S (indent_count (tree_part line)))
    ∧ (Forall (λ x, Forall (λ c, c ≠ 47%N) x) (path_stack st') →
       split 47 (join SLASH (path_stack st')) = path_stack st'
       ∧ length (split 47 (join SLASH (path_stack st')))
         = S (indent_count (tree_part line) `min` length (path_stack st))).
Proof.
  intros Hne Hsize. eexists. split; [by apply process_line_retained|]. simpl.
  assert (length (take (indent_count (tree_part line)) (path_stack st)
                  ++ [name_of (tree_part line)])
          = S (indent_count (tree_part line) `min` length (path_stack st))) as Hlen.
  { rewrite length_app, length_take. simpl. lia. }
  split_and!; [done|done|done| |].
  - intros Hd. rewrite Hlen. lia.
  - intros Hs. rewrite split_join; [done| |done].
    by destruct (take _ _).
Qed.

Lemma process_line_stack_witness :
  ∃ st', process_line (Parser [lit "root"; lit "old"] ∅)
           (lit "[   1.0 KB] " ++ ELL ++ lit "child" ++ [NL]) = Ok st'
    ∧ path_stack st' = [lit "root"; lit "child"].
Proof.
  assert (H1 : strip (lit "[   1.0 KB] " ++ ELL ++ lit "child" ++ [NL]) ≠ []).
  { vm_compute. discriminate. }
  assert (H2 : parse_size_to_bytes (size_part (lit "[   1.0 KB] " ++ ELL ++ lit "child" ++ [NL]))
               = Ok 1024).
  { vm_compute. reflexivity. }
  destruct (process_line_stack (Parser [lit "root"; lit "old"] ∅) _ _ H1 H2)
    as (st' & Hst & Hstack & _).
  exists st'. split; [exact Hst|]. rewrite Hstack. vm_compute. reflexivity.
Defined.

(** Counterexample to C4 as stated, a line of depth 1 that comes
    first: the stack is empty, nothing is truncated, and after the line
    it has one entry, not two. *)
Lemma stack_depth_counterexample :
  strip orphan_line ≠ []
  ∧ indent_count (tree_part orphan_line) = 1%nat
  ∧ ∃ st', process_line (Parser [] ∅) orphan_line = Ok st'
      ∧ path_stack st' = [lit "child"]
      ∧ length (path_stack st') ≠ S (indent_count (tree_part orphan_line)).
Proof.
  split; [vm_compute; discriminate|]. split; [vm_compute; reflexivity|].
  eexists. split; [unfold process_line; vm_compute; reflexivity|].
  split; [vm_compute; reflexivity|vm_compute; discriminate].
Qed.

(** C10.  The line [1.2.3 B] is retained and shorter than 13
    characters, and its tree field is empty; but decoding its size
    raises, so no entry is inserted and loading the snapshot ends the
    run with status 1. *)
Theorem short_line_dotted_run_raises :
  strip short_dotted_line ≠ []
  ∧ (length short_dotted_line < 13)%nat
  ∧ tree_part short_dotted_line = []
  ∧ (∀ st, process_line st short_dotted_line
           = Raise (Exn ValueError (lit "could not convert string to float: '1.2.3'")))
  ∧ ∀ file_path, ∃ printed,
      load_snapshot (λ _, Ok (HEADER ++ short_dotted_line)) file_path = SysExit 1 printed.
Proof.
  split; [vm_compute; discriminate|]. split; [vm_compute; lia|].
  split; [vm_compute; reflexivity|]. split.
  - intros st. apply process_line_raises; [vm_compute; discriminate|].
    vm_compute. reflexivity.
  - intros file_path. eexists. unfold load_snapshot, read_snapshot.
    rewrite bind_Ok.
    change (drop 2 (readlines (HEADER ++ short_dotted_line))) with [short_dotted_line].
    simpl process_lines.
    rewrite (process_line_raises (Parser [] ∅) short_dotted_line
               (Exn ValueError (lit "could not convert string to float: '1.2.3'")));
      [reflexivity|vm_compute; discriminate|vm_compute; reflexivity].
Qed.

(** ** [format_bytes] *)

Section Format.

Lemma nearest_sign (n : Z) : n ≠ 0 → has_sign (n <? 0) (Float.nearest n).
Proof.
  intros Hn. unfold Float.nearest, binary_normalize, binary_round.
  destruct n as [|p|p]; [done| |]; simpl (_ <? _).
  - destruct (shl_align _ _ _) as [mz ez]. apply round_aux_spec. lia.
  - destruct (shl_align _ _ _) as [mz ez]. apply round_aux_spec. lia.
Qed.

Lemma of_int_ok (n : Z) :
  Z.abs n < Float.int_limit → Float.of_int n = Ok (Float.nearest n).
Proof.
  intros H. unfold Float.of_int.
  destruct (Z.leb_spec Float.int_limit (Z.abs n)); [lia|done].
Qed.

Lemma as_float_signed (s : bool) (v : number) :
  signed s v → ∃ x, as_float v = Ok x ∧ has_sign s x.
Proof.
  destruct v as [n|x]; simpl.
  - intros (Hn & <- & Hb). rewrite of_int_ok by done. eexists. split; [done|].
    by apply nearest_sign.
  - intros H. by exists x.
Qed.

(** The loop on a positive value: it ends, on a value with the sign [+]. *)
Lemma scale_positive (larger : list str) (v : number) (unit : str) :
  signed false v →
  ∃ v' unit', scale larger v unit = Ok (v', unit') ∧ signed false v'.
Proof.
  revert v unit. induction larger as [|u larger IH]; intros v unit Hv; simpl.
  - by exists v, unit.
  - destruct (ge_1024 v); [|by exists v, unit].
    destruct (as_float_signed false v Hv) as (x & -> & Hx). rewrite bind_Ok.
    apply IH. simpl. unfold f1024. by apply div_sign.
Qed.

(** The loop on a negative value: it is not entered. *)
Lemma scale_negative (larger : list str) (n : Z) (unit : str) :
  n < 0 → scale larger (Int n) unit = Ok (Int n, unit).
Proof.
  intros Hn. destruct larger as [|u larger]; simpl; [done|].
  destruct (Z.leb_spec 1024 n); [lia|done].
Qed.

Lemma format_plus_1f_sign (s : bool) (x : spec_float) :
  has_sign s x → ∃ rest, Float.format_plus_1f x = Float.sign_char s :: rest.
Proof. destruct x; simpl; try done; intros ->; by eexists. Qed.

(** [format_bytes] returns on every size that converts to [float], with
    the sign of the size in front. *)
Lemma format_bytes_with_sign (n : Z) :
  n ≠ 0 → Z.abs n < Float.int_limit →
  ∃ rest, format_bytes n = Ok (Float.sign_char (n <? 0) :: rest).
Proof.
  intros Hn Hb. unfold format_bytes.
  destruct (Z.eqb_spec n 0) as [|_]; [done|].
  destruct (Z.ltb_spec n 0) as [Hneg|Hpos].
  - rewrite scale_negative by done. rewrite bind_Ok.
    destruct (as_float_signed true (Int n)) as (x & Hx & Hs).
    { simpl. split_and!; [done| |done]. by apply Z.ltb_lt. }
    rewrite Hx, bind_Ok.
    destruct (format_plus_1f_sign true x Hs) as [rest ->]. by eexists.
  - destruct (scale_positive [lit "KB"; lit "MB"; lit "GB"; lit "TB"] (Int n) (lit "B"))
      as (v' & unit' & -> & Hv').
    { simpl. split_and!; [done| |done]. apply Z.ltb_ge. lia. }
    rewrite bind_Ok.
    destruct (as_float_signed false v' Hv') as (x & -> & Hs). rewrite bind_Ok.
    destruct (format_plus_1f_sign false x Hs) as [rest ->]. by eexists.
Qed.

Lemma format_bytes_ok (n : Z) :
  Z.abs n < Float.int_limit → ∃ s, format_bytes n = Ok s.
Proof.
  intros Hb. destruct (Z.eq_dec n 0) as [->|Hn]; [by eexists|].
  destruct (format_bytes_with_sign n Hn Hb) as [rest ->]. by eexists.
Qed.

End Format.

(** C9 (amended).  [format_bytes(0)] is ["0 B"].  For every integer
    [n > 0] that converts to [float] (below [2^1024 - 2^970]) the string
    [format_bytes(n)] returns begins with [+], and for every negative
    [n] that converts to [float] it begins with [-]. *)
Theorem format_bytes_sign (n : Z) :
  format_bytes 0 = Ok (lit "0 B")
  ∧ (0 < n < Float.int_limit → ∃ rest, format_bytes n = Ok (lit "+" ++ rest))
  ∧ (- Float.int_limit < n < 0 → ∃ rest, format_bytes n = Ok (lit "-" ++ rest)).
Proof.
  split; [reflexivity|]. split; intros Hn.
  - destruct (format_bytes_with_sign n) as [rest Hr]; [lia|lia|].
    exists rest. rewrite Hr. destruct (Z.ltb_spec n 0); [lia|done].
  - destruct (format_bytes_with_sign n) as [rest Hr]; [lia|lia|].
    exists rest. rewrite Hr. destruct (Z.ltb_spec n 0); [done|lia].
Qed.

Lemma format_bytes_sign_witness :
  (0 < 1536 < Float.int_limit ∧ ∃ rest, format_bytes 1536 = Ok (lit "+" ++ rest))
  ∧ (- Float.int_limit < -2048 < 0 ∧ ∃ rest, format_bytes (-2048) = Ok (lit "-" ++ rest)).
Proof.
  assert (H1 : 0 < 1536 < Float.int_limit) by (vm_compute; split; reflexivity).
  assert (H2 : - Float.int_limit < -2048 < 0) by (vm_compute; split; reflexivity).
  split.
  - split; [exact H1|]. exact (proj1 (proj2 (format_bytes_sign 1536)) H1).
  - split; [exact H2|]. exact (proj2 (proj2 (format_bytes_sign (-2048))) H2).
Defined.

(** Counterexample to C9 as stated, at 0, which is not negative: the
    string returned is ["0 B"], without a sign. *)
Lemma format_bytes_zero_counterexample :
  0 >= 0 ∧ format_bytes 0 = Ok (lit "0 B")
  ∧ ¬ ∃ rest, format_bytes 0 = Ok (lit "+" ++ rest).
Proof.
  split; [lia|]. split; [reflexivity|]. intros [rest H]. vm_compute in H. discriminate H.
Qed.

Example format_bytes_samples :
  format_bytes 1536 = Ok (lit "+1.5 KB")
  ∧ format_bytes (-2048) = Ok (lit "-2048.0 B")
  ∧ format_bytes 123456789 = Ok (lit "+117.7 MB")
  ∧ format_bytes (2 ^ 1024)
    = Raise (Exn OverflowError (lit "int too large to convert to float")).
Proof. split_and!; vm_compute; reflexivity. Qed.

(** ** The shape of a formatted size *)

Section FormatShape.

Lemma scale_unit (larger : list str) (v v' : number) (unit unit' : str) :
  scale larger v unit = Ok (v', unit') → unit' = unit ∨ In unit' larger.
Proof.
  revert v unit. induction larger as [|u larger IH]; intros v unit; simpl.
  - intros [= _ <-]. by left.
  - destruct (ge_1024 v); [|intros [= _ <-]; by left].
    destruct (as_float v) as [x|e]; [|done]. rewrite bind_Ok.
    intros [->|H]%IH; right; auto.
Qed.

Lemma format_plus_1f_head (x : spec_float) :
  ∃ c rest, Float.format_plus_1f x = c :: rest ∧ is_space c = false.
Proof.
  destruct x as [[]|[]| |[] m e]; simpl; do 2 eexists; split; reflexivity.
Qed.

Lemma lstrip_with_head (p : N → bool) (c : N) (s : str) :
  p c = false → lstrip_with p (c :: s) = c :: s.
Proof. intros H. simpl. by rewrite H. Qed.

Lemma rstrip_with_last (p : N → bool) (c : N) (s : str) :
  p c = false → rstrip_with p (s ++ [c]) = s ++ [c].
Proof.
  intros H. unfold rstrip_with. rewrite rev_app_distr. simpl.
  rewrite H. simpl. by rewrite rev_involutive.
Qed.

(** What [format_bytes] returns has no whitespace at either end. *)
Lemma format_bytes_stripped (n : Z) (s : str) :
  format_bytes n = Ok s → strip s = s.
Proof.
  unfold format_bytes. destruct (n =? 0).
  { intros [= <-]. reflexivity. }
  destruct (scale _ _ _) as [[v unit]|e] eqn:Hsc; [|done]. rewrite bind_Ok.
  destruct (as_float v) as [x|e]; [|done]. rewrite bind_Ok. intros [= <-].
  assert (In unit Re.units) as Hu.
  { apply scale_unit in Hsc as [->|H]; [by left|]. right. exact H. }
  destruct (format_plus_1f_head x) as (c & rest & -> & Hc).
  assert (∃ init, unit = init ++ [LETTER_B]) as [init ->].
  { revert Hu. unfold Re.units. simpl.
    intros [<-|[<-|[<-|[<-|[<-|[]]]]]];
      [by exists []|by exists (lit "K")|by exists (lit "M")
      |by exists (lit "G")|by exists (lit "T")]. }
  unfold strip, lstrip. rewrite <- !app_comm_cons.
  rewrite lstrip_with_head by done.
  unfold rstrip.
  assert (c :: rest ++ SP :: init ++ [LETTER_B]
          = (c :: rest ++ SP :: init) ++ [LETTER_B]) as E
    by (simpl; by rewrite <- app_assoc).
  change (rstrip_with is_space (c :: rest ++ SP :: init ++ [LETTER_B])
          = c :: rest ++ SP :: init ++ [LETTER_B]).
  rewrite E. by rewrite rstrip_with_last.
Qed.

End FormatShape.

(** ** The whole run *)

Section Run.

Implicit Types old new snap : gmap str Z.

Lemma getitem_In (d : list (str * Z)) (key : str) (v : Z) :
  getitem d key = Ok v → In (key, v) d.
Proof.
  induction d as [|[k x] d IH]; [done|]. simpl. unfold str_eqb.
  case_bool_decide as Hk.
  - intros [= <-]. left. by subst.
  - intros H. right. by apply IH.
Qed.

(** Every size decoded is a size between 0 and the largest float. *)
Lemma parse_size_range (s : str) (v : Z) :
  parse_size_to_bytes s = Ok v → 0 ≤ v ≤ max_size.
Proof.
  unfold parse_size_to_bytes, max_size.
  destruct (Re.search s) as [[g1 g2]|]; [|intros [= <-]; lia].
  unfold Float.of_str. destruct (Float.decimal_literal g1) as [[m j]|]; [|done].
  rewrite bind_Ok.
  destruct (getitem multipliers g2) as [mult|] eqn:Hget; [|done]. rewrite bind_Ok.
  apply getitem_In, multiplier_float in Hget as (_ & _ & -> & my & ey & -> & _).
  rewrite bind_Ok. intros Hv.
  pose proof (of_decimal_sign m j) as Hs.
  destruct (mul_finite_or_inf (Float.of_decimal m j) my ey Hs) as [Hfin|Hinf].
  - destruct (to_int_finite _ (mul_sign _ my ey Hs) Hfin) as (v' & Hv' & Hr).
    rewrite Hv in Hv'. by injection Hv' as <-.
  - rewrite Hinf in Hv. done.
Qed.















End Run.




(** ** The end-to-end example

    A root of 1.0 KB with one child, whose size goes from 512.0 B to
    1.0 KB between the two snapshots. *)
Example end_to_end :
  read_snapshot example_world (lit "old.txt")
  = Ok (<[lit "root/child" := 512]> (<[lit "root" := 1024]> ∅))
  ∧ read_snapshot example_world (lit "new.txt")
    = Ok (<[lit "root/child" := 1024]> (<[lit "root" := 1024]> ∅))
  ∧ diff (<[lit "root/child" := 512]> (<[lit "root" := 1024]> ∅))
         (<[lit "root/child" := 1024]> (<[lit "root" := 1024]> ∅))
    = Ok (Changes [] [] [(lit "root/child", 512, 1024)])
  ∧ main (quiet_system example_world) (lit "old.txt") (lit "new.txt")
    = Outcome 0 [DONE; WROTE ++ lit "diff_old_vs_new.txt"]
        (Some (lit "diff_old_vs_new.txt",
               headline (lit "old.txt") (lit "new.txt")
               ++ [127381; 32]%N ++ lit "ADDED (0)" ++ [NL]
               ++ List.repeat 45%N 30 ++ [NL]
               ++ [NL; 128465; 65039; 32]%N ++ lit "REMOVED (0)" ++ [NL]
               ++ List.repeat 45%N 30 ++ [NL]
               ++ [NL; 128260; 32]%N ++ lit "SIZE CHANGED (1)" ++ [NL]
               ++ List.repeat 45%N 30 ++ [NL]
               ++ lit "[  +512.0 B] (Current:  +1.0 KB)  root/child" ++ [NL])) None.
Proof. split_and!; vm_compute; reflexivity. Qed.


(** * Further properties *)

(** ** Size decoding *)

Section SizeFields.

Lemma match_here_not_start (c : N) (s : str) :
  Re.digit_or_dot c = false → Re.match_here (c :: s) = None.
Proof. intros H. unfold Re.match_here. by rewrite H. Qed.

Lemma search_skips (pre s : str) :
  Forall (λ c, Re.digit_or_dot c = false) pre → Re.search (pre ++ s) = Re.search s.
Proof.
  induction 1 as [|c pre Hc _ IH]; [done|].
  change ((c :: pre) ++ s) with (c :: (pre ++ s)).
  by rewrite search_cons, match_here_not_start.
Qed.

(** The groups of a match are where the pattern puts them. *)
Lemma match_here_groups (s g1 g2 : str) :
  Re.match_here s = Some (g1, g2) →
  ∃ ws rest, s = g1 ++ ws ++ g2 ++ rest ∧ g1 ≠ []
    ∧ Forall (λ c, Re.digit_or_dot c = true) g1
    ∧ Forall (λ c, is_space c = true) ws ∧ In g2 Re.units.
Proof.
  destruct s as [|c s]; [done|]. unfold Re.match_here.
  destruct (Re.digit_or_dot c) eqn:Hc; [|done].
  intros (a & b & -> & Ha & H)%greedy_inv.
  apply greedy_inv in H as (ws & b' & -> & Hws & Hk). cbv beta in Hk.
  destruct (Re.alternation Re.units b') as [tok|] eqn:E; [|discriminate Hk].
  apply alternation_inv in E as (Htok & rest & ->).
  injection Hk as <- <-.
  exists ws, rest. split_and!; auto.
Qed.

Lemma search_groups (s g1 g2 : str) :
  Re.search s = Some (g1, g2) →
  ∃ pre ws rest, s = pre ++ g1 ++ ws ++ g2 ++ rest ∧ g1 ≠ []
    ∧ Forall (λ c, Re.digit_or_dot c = true) g1
    ∧ Forall (λ c, is_space c = true) ws ∧ In g2 Re.units.
Proof.
  induction s as [|c s IH]; [done|]. rewrite search_cons.
  destruct (Re.match_here (c :: s)) as [[h1 h2]|] eqn:E.
  - intros [= -> ->]. apply match_here_groups in E as (ws & rest & -> & H).
    by exists [], ws, rest.
  - intros (pre & ws & rest & -> & H)%IH. by exists (c :: pre), ws, rest.
Qed.

Lemma unit_has_B (tok : str) : In tok Re.units → LETTER_B ∈ tok.
Proof.
  unfold Re.units. simpl.
  intros [<-|[<-|[<-|[<-|[<-|[]]]]]]; vm_compute; repeat constructor.
Qed.

Lemma split_at_dot_length (s a : str) (b : option str) :
  Float.split_at_dot s = (a, b) →
  (length a + length (default [] b) ≤ length s)%nat.
Proof.
  revert a b. induction s as [|c s IH]; intros a b; simpl.
  - intros [= <- <-]. simpl. lia.
  - destruct (c =? Float.DOT)%N.
    + intros [= <- <-]. simpl. lia.
    + destruct (Float.split_at_dot s) as [a' b'] eqn:E. intros [= <- <-].
      specialize (IH _ _ eq_refl). simpl. lia.
Qed.

Lemma decimal_literal_bounds (s : str) (m : Z) (j : nat) :
  Float.decimal_literal s = Some (m, j) → 0 ≤ m < 10 ^ Z.of_nat (length s).
Proof.
  unfold Float.decimal_literal.
  destruct (Float.split_at_dot s) as [ip fp] eqn:E.
  apply split_at_dot_length in E.
  destruct (ip ++ _) eqn:E'; [done|]. rewrite <- E'.
  destruct (Float.digits_value 0 _) as [m'|] eqn:Hv; [|done]. intros [= <- <-].
  apply digits_value_bounds in Hv; [|lia].
  rewrite length_app in Hv.
  assert (length (match fp with Some f => f | None => [] end) = length (default [] fp))
    as Hl by (by destruct fp).
  rewrite Hl in Hv.
  assert (10 ^ Z.of_nat (length ip + length (default [] fp)) ≤ 10 ^ Z.of_nat (length s))
    by (apply Z.pow_le_mono_r; lia).
  lia.
Qed.

End SizeFields.

(** X1.  Characters that are neither digits nor points in front of a
    size field do not change what it decodes to: brackets, padding and
    the like are passed over. *)
Theorem parse_size_skips_prefix (pre s : str) :
  Forall (λ c, Re.digit_or_dot c = false) pre →
  parse_size_to_bytes (pre ++ s) = parse_size_to_bytes s.
Proof. intros H. unfold parse_size_to_bytes. by rewrite search_skips. Qed.

Lemma parse_size_skips_prefix_witness :
  parse_size_to_bytes (lit "[   " ++ lit "1.0 KB]") = parse_size_to_bytes (lit "1.0 KB]").
Proof.
  apply parse_size_skips_prefix. repeat constructor.
Defined.

(** X2.  A field without the letter [B], or without any digit or point,
    decodes to 0: lower-case units, bare numbers and blank fields are
    not sizes. *)
Theorem parse_size_without_unit (s : str) :
  Forall (λ c, c ≠ LETTER_B) s ∨ Forall (λ c, Re.digit_or_dot c = false) s →
  parse_size_to_bytes s = Ok 0.
Proof.
  intros H. unfold parse_size_to_bytes.
  destruct (Re.search s) as [[g1 g2]|] eqn:E; [|done]. exfalso.
  apply search_groups in E as (pre & ws & rest & -> & Hne & Hg1 & _ & Hg2).
  destruct H as [H|H].
  - apply unit_has_B in Hg2. rewrite Forall_forall in H.
    apply (H LETTER_B); [|done]. rewrite !elem_of_app. auto.
  - apply Forall_app in H as [_ [H _]%Forall_app].
    destruct g1 as [|c g1]; [done|].
    apply Forall_cons in H as [H _]. apply Forall_cons in Hg1 as [Hg1 _]. congruence.
Qed.

Lemma parse_size_without_unit_witness :
  parse_size_to_bytes (lit "[ 12.5 kb ]") = Ok 0 ∧ parse_size_to_bytes (lit "            ") = Ok 0.
Proof.
  split; apply parse_size_without_unit.
  - left. repeat constructor; discriminate.
  - right. repeat constructor.
Defined.

(** X3.  A decoded size is never negative and never above the largest
    float, [2^1024 - 2^971]. *)
Theorem parse_size_in_range (s : str) (v : Z) :
  parse_size_to_bytes s = Ok v → 0 ≤ v ≤ 2 ^ 1024 - 2 ^ 971.
Proof. apply parse_size_range. Qed.

Lemma parse_size_in_range_witness : 0 ≤ 11010048 ≤ 2 ^ 1024 - 2 ^ 971.
Proof.
  apply (parse_size_in_range (lit "[ 10.5 MB]")). vm_compute. reflexivity.
Defined.

(** How size decoding can raise. *)
Lemma parse_size_raise_cases (s : str) (e : exn) :
  parse_size_to_bytes s = Raise e →
  ((∃ g1 g2, Re.search s = Some (g1, g2) ∧ Float.decimal_literal g1 = None
      ∧ e = Exn ValueError (lit "could not convert string to float: " ++ Float.quoted g1))
   ∨ e = Exn OverflowError (lit "cannot convert float infinity to integer"))
  ∧ ((length s ≤ 12)%nat → exn_kind e = ValueError).
Proof.
  unfold parse_size_to_bytes.
  destruct (Re.search s) as [[g1 g2]|] eqn:E; [|done].
  pose proof (search_groups _ _ _ E) as (pre & ws & rest & Hs & _ & _ & _ & Hg2).
  unfold Float.of_str.
  destruct (Float.decimal_literal g1) as [[m j]|] eqn:Hlit.
  - rewrite bind_Ok.
    assert (∃ mult, In (g2, mult) multipliers) as [mult Hmult].
    { revert Hg2. unfold Re.units, multipliers. simpl.
      intros [<-|[<-|[<-|[<-|[<-|[]]]]]]; eexists; eauto 6. }
    pose proof (multiplier_float _ _ Hmult) as (_ & Hget & Hof & my & ey & Hf & _).
    rewrite Hget, bind_Ok, Hof, bind_Ok, Hf. intros Hr.
    pose proof (of_decimal_sign m j) as Hsign.
    destruct (mul_finite_or_inf (Float.of_decimal m j) my ey Hsign) as [Hfin|Hinf].
    + destruct (to_int_finite _ (mul_sign _ my ey Hsign) Hfin) as (v & Hv & _).
      congruence.
    + rewrite Hinf in Hr. injection Hr as <-. split; [by right|].
      intros Hlen. exfalso.
      apply decimal_literal_bounds in Hlit.
      assert (length g1 ≤ 12)%nat by (subst s; rewrite !length_app in Hlen; lia).
      assert (10 ^ Z.of_nat (length g1) ≤ 10 ^ 12) by (apply Z.pow_le_mono_r; lia).
      destruct (short_literal_finite m j mult g2) as (v & Hv & _); [lia|done|].
      rewrite Hf, Hinf in Hv. done.
  - rewrite bind_Raise. intros [= <-]. split; [|done]. left. by exists g1, g2.
Qed.


(** X4.  Size decoding raises nothing but the [ValueError] of [float],
    whose text quotes the run, and the [OverflowError] of [int] on an
    infinity; it never raises [KeyError].  On a field of at most 12
    characters only the [ValueError] is possible. *)
Theorem parse_size_failures (s : str) (e : exn) :
  parse_size_to_bytes s = Raise e →
  ((∃ g1 g2, Re.search s = Some (g1, g2)
      ∧ e = Exn ValueError (lit "could not convert string to float: " ++ Float.quoted g1))
   ∨ e = Exn OverflowError (lit "cannot convert float infinity to integer"))
  ∧ ((length s ≤ 12)%nat → exn_kind e = ValueError).
Proof.
  intros [[(g1 & g2 & Hs & _ & He)|He] Hlen]%parse_size_raise_cases.
  - split; [left; by exists g1, g2|done].
  - split; [by right|done].
Qed.

Lemma parse_size_failures_witness :
  parse_size_to_bytes (lit "[  .. MB  ]")
  = Raise (Exn ValueError (lit "could not convert string to float: '..'"))
  ∧ exn_kind (Exn ValueError (lit "could not convert string to float: '..'")) = ValueError.
Proof.
  assert (H : parse_size_to_bytes (lit "[  .. MB  ]")
              = Raise (Exn ValueError (lit "could not convert string to float: '..'")))
    by (vm_compute; reflexivity).
  split; [exact H|]. apply (proj2 (parse_size_failures _ _ H)). vm_compute. lia.
Defined.

Section FloatLiterals.

Lemma dots_cons (c : N) (s : str) :
  dots (c :: s) = if (c =? Float.DOT)%N then S (dots s) else dots s.
Proof.
  unfold dots. rewrite filter_cons.
  destruct (N.eqb_spec c Float.DOT); [by rewrite decide_True|by rewrite decide_False].
Qed.

Lemma dots_zero (s : str) :
  Forall (λ c, Re.digit_or_dot c = true) s → dots s = 0%nat →
  Forall (λ c, is_decimal c = true) s.
Proof.
  induction 1 as [|c s Hc _ IH]; [constructor|]. rewrite dots_cons.
  unfold Re.digit_or_dot in Hc. destruct (c =? Float.DOT)%N; [done|].
  rewrite orb_false_r in Hc. intros H. constructor; auto.
Qed.

Lemma dots_pos (s : str) : (0 < dots s)%nat → Float.DOT ∈ s.
Proof.
  induction s as [|c s IH]; [unfold dots; simpl; lia|]. rewrite dots_cons.
  destruct (N.eqb_spec c Float.DOT) as [->|_]; [intros _; left|intros H; right; auto].
Qed.

Lemma digits_value_total (acc : Z) (ds : str) :
  Forall (λ c, is_decimal c = true) ds → is_Some (Float.digits_value acc ds).
Proof.
  intros H. revert acc. induction H as [|c ds Hc _ IH]; intros acc; simpl; [done|].
  unfold is_decimal in Hc. destruct (decimal_value c); [apply IH|done].
Qed.

Lemma digits_value_dot (acc : Z) (ds : str) :
  Float.DOT ∈ ds → Float.digits_value acc ds = None.
Proof.
  revert acc. induction ds as [|c ds IH]; intros acc H; [by apply elem_of_nil in H|].
  simpl. destruct (decimal_value c) as [d|] eqn:E; [|done].
  apply elem_of_cons in H as [<-|H]; [by vm_compute in E|by apply IH].
Qed.

Lemma split_at_dot_spec (s : str) :
  Forall (λ c, Re.digit_or_dot c = true) s →
  Forall (λ c, is_decimal c = true) (Float.split_at_dot s).1
  ∧ match (Float.split_at_dot s).2 with
    | None => s = (Float.split_at_dot s).1 ∧ dots s = 0%nat
    | Some rest =>
        s = (Float.split_at_dot s).1 ++ Float.DOT :: rest ∧ dots s = S (dots rest)
    end.
Proof.
  induction 1 as [|c s Hc _ IH]; [by split; [constructor|]|].
  simpl. rewrite dots_cons. unfold Re.digit_or_dot in Hc.
  destruct (N.eqb_spec c Float.DOT) as [->|Hne]; simpl.
  - split; [constructor|done].
  - rewrite orb_false_r in Hc.
    destruct (Float.split_at_dot s) as [a [rest|]]; simpl in *;
      destruct IH as [IH1 [IH2 IH3]]; (split; [by constructor|]); split; congruence.
Qed.

(** [float] rejects a run of digits and points exactly when the run has
    two points or more, or nothing but points. *)
Lemma decimal_literal_rejects (s : str) :
  Forall (λ c, Re.digit_or_dot c = true) s →
  Float.decimal_literal s = None
  ↔ (2 ≤ dots s)%nat ∨ Forall (λ c, c = Float.DOT) s.
Proof.
  intros Hs. destruct (split_at_dot_spec s Hs) as [Hip Hfp].
  unfold Float.decimal_literal.
  destruct (Float.split_at_dot s) as [ip [rest|]]; cbn [fst snd] in *.
  - destruct Hfp as [-> Hd].
    apply Forall_app in Hs as [_ [_ Hrest]%Forall_cons].
    destruct (decide (dots rest = 0%nat)) as [Hz|Hnz].
    + pose proof (dots_zero rest Hrest Hz) as Hdec.
      destruct (ip ++ rest) as [|c l] eqn:E.
      * apply app_eq_nil in E as [-> ->]. split; [|done]. intros _. right.
        by repeat constructor.
      * rewrite <- E.
        destruct (digits_value_total 0 (ip ++ rest)) as [m ->];
          [by apply Forall_app|].
        split; [done|]. intros [H|H]; [lia|]. exfalso.
        assert (is_decimal c = true) as Hc.
        { assert (c ∈ ip ++ rest) as Hin by (rewrite E; left).
          assert (Forall (λ c, is_decimal c = true) (ip ++ rest)) as Hall
            by (by apply Forall_app).
          rewrite Forall_forall in Hall. auto. }
        assert (c = Float.DOT) as ->.
        { rewrite Forall_forall in H. apply H.
          assert (c ∈ ip ++ rest) as Hin by (rewrite E; left).
          apply elem_of_app in Hin as [Hin|Hin]; rewrite elem_of_app; [by left|].
          right. by right. }
        by vm_compute in Hc.
    + split; [intros _; left; lia|]. intros _.
      assert (Float.DOT ∈ ip ++ rest) as Hin
        by (apply elem_of_app; right; apply dots_pos; lia).
      destruct (ip ++ rest) as [|c l] eqn:E'; [done|].
      by rewrite (digits_value_dot 0 _ Hin).
  - destruct Hfp as [<- Hd]. rewrite app_nil_r.
    destruct s as [|c l] eqn:E; [split; [by right|done]|]. rewrite <- E in *.
    destruct (digits_value_total 0 s Hip) as [m ->].
    split; [done|]. intros [H|H]; [lia|]. exfalso. subst s.
    apply Forall_cons in H as [-> _]. apply Forall_cons in Hip as [Hc _].
    by vm_compute in Hc.
Qed.

End FloatLiterals.

(** X5.  When the pattern matches, decoding raises [ValueError] exactly
    when the run it matched has two points or more, or nothing but
    points; runs such as [1.] and [.5] are read as numbers. *)
Theorem parse_size_value_error (s g1 g2 : str) :
  Re.search s = Some (g1, g2) →
  (∃ e, parse_size_to_bytes s = Raise e ∧ exn_kind e = ValueError)
  ↔ (2 ≤ dots g1)%nat ∨ Forall (λ c, c = Float.DOT) g1.
Proof.
  intros E.
  pose proof (search_groups _ _ _ E) as (pre & ws & rest & _ & _ & Hg1 & _ & _).
  rewrite <- (decimal_literal_rejects g1 Hg1). split.
  - intros (e & He & Hk).
    destruct (parse_size_raise_cases s e He) as [[(h1 & h2 & Hs & Hlit & _)|Hov] _].
    + rewrite E in Hs. by injection Hs as <- <-.
    + by subst e.
  - intros Hlit. unfold parse_size_to_bytes, Float.of_str. rewrite E, Hlit.
    eexists. split; [reflexivity|done].
Qed.

Lemma parse_size_value_error_witness :
  (2 ≤ dots (lit "1.2.3"))%nat ∨ Forall (λ c, c = Float.DOT) (lit "1.2.3").
Proof.
  assert (H : Re.search (lit "[ 1.2.3 B ]") = Some (lit "1.2.3", lit "B"))
    by (vm_compute; reflexivity).
  apply (proj1 (parse_size_value_error _ _ _ H)).
  eexists. split; [vm_compute; reflexivity|reflexivity].
Defined.

(** ** Formatting *)

Section SmallIntegers.

Lemma iter_xO_value (p k : positive) :
  Z.pos (Pos.iter xO p k) = Z.pos p * 2 ^ Z.pos k.
Proof.
  induction k as [|k IH] using Pos.peano_ind.
  - simpl. lia.
  - rewrite Pos.iter_succ, Pos2Z.inj_xO, IH, Pos2Z.inj_succ, Z.pow_succ_r by lia. lia.
Qed.

Lemma iter_xO_digits (p k : positive) :
  digits2_pos (Pos.iter xO p k) = (digits2_pos p + k)%positive.
Proof.
  induction k as [|k IH] using Pos.peano_ind.
  - simpl. lia.
  - rewrite Pos.iter_succ. simpl. rewrite IH. lia.
Qed.

(** Rounding a mantissa of exactly 53 bits at an exponent in range
    changes nothing. *)
Lemma round_aux_canonical (s : bool) (m : positive) (e : Z) :
  Z.pos (digits2_pos m) = 53 → -1074 ≤ e ≤ 971 →
  binary_round_aux Float.prec Float.emax s (Z.pos m) e loc_Exact = S754_finite s m e.
Proof.
  intros Hd He.
  assert (Hshr : shr_fexp Float.prec Float.emax (Z.pos m) e loc_Exact
                 = ({| shr_m := Z.pos m; shr_r := false; shr_s := false |}, e)).
  { unfold shr_fexp, shr, Zdigits2. rewrite Hd, fexp_eq.
    destruct (Z.max (53 + e - 53) (-1074) - e) eqn:E; [done|lia|done]. }
  unfold binary_round_aux. rewrite Hshr. simpl shr_m. simpl loc_of_shr_record.
  simpl round_nearest_even. rewrite Hshr. simpl shr_m.
  destruct (Z.leb_spec e (Float.emax - Float.prec)); [done|].
  unfold Float.emax, Float.prec in *. lia.
Qed.

(** An integer below [2^53] in magnitude converts exactly: to its
    magnitude shifted to 53 bits. *)
Lemma nearest_exact (n : Z) :
  0 < Z.abs n < 2 ^ 53 →
  ∃ m k, Float.nearest n = S754_finite (n <? 0) m (- k)
    ∧ 0 ≤ k ≤ 52 ∧ Z.pos m = Z.abs n * 2 ^ k.
Proof.
  intros Hn.
  assert (∃ p, Z.abs n = Z.pos p ∧ Float.nearest n
            = binary_round Float.prec Float.emax (n <? 0) p 0) as (p & Hp & ->).
  { destruct n as [|p|p]; [simpl in Hn; lia|by exists p|by exists p]. }
  rewrite Hp in *. clear Hp.
  pose proof (Zdigits2_bound (Z.pos p) 53 ltac:(lia) ltac:(lia) ltac:(lia)) as Hd.
  simpl Zdigits2 in Hd.
  assert (0 < Z.pos (digits2_pos p)) as Hd0 by lia.
  unfold binary_round, shl_align. rewrite fexp_eq.
  destruct (Z.max (Z.pos (digits2_pos p) + 0 - 53) (-1074) - 0) as [|q|q] eqn:E; [|lia|].
  - assert (Z.pos (digits2_pos p) = 53) as H53 by lia.
    rewrite round_aux_canonical by (done || lia).
    exists p, 0. split; [done|]. split; [lia|]. simpl. lia.
  - assert (Z.max (Z.pos (digits2_pos p) + 0 - 53) (-1074) = Z.neg q) as -> by lia.
    assert (Z.neg q = Z.pos (digits2_pos p) - 53) as Hq by lia.
    rewrite round_aux_canonical.
    + exists (Pos.iter xO p q), (Z.pos q). split; [done|].
      split; [lia|]. apply iter_xO_value.
    + rewrite iter_xO_digits, Pos2Z.inj_add. lia.
    + lia.
Qed.

Lemma tenths_exact (m : positive) (k a : Z) :
  0 ≤ k → Z.pos m = a * 2 ^ k → Float.tenths m (- k) = 10 * a.
Proof.
  intros Hk Hm. unfold Float.tenths.
  assert (0 < 2 ^ k) by (apply Z.pow_pos_nonneg; lia).
  destruct (Z.leb_spec 0 (- k)).
  - assert (k = 0) as -> by lia. simpl in *. lia.
  - unfold Float.div_half_even. rewrite Z.opp_involutive, Hm.
    replace (10 * (a * 2 ^ k)) with (10 * a * 2 ^ k) by lia.
    rewrite Z.mod_mul, Z.div_mul by lia.
    destruct (2 * 0 ?= 2 ^ k) eqn:E; [apply Z.compare_eq in E; lia|done|].
    apply Z.compare_gt_iff in E. lia.
Qed.

(** Such a float is printed as the integer, with one 0 after the point. *)
Lemma format_small_integer (n : Z) :
  0 < Z.abs n < 2 ^ 53 →
  Float.format_plus_1f (Float.nearest n)
  = Float.sign_char (n <? 0) :: Float.decimal_digits (Z.abs n) ++ lit ".0".
Proof.
  intros Hn. destruct (nearest_exact n Hn) as (m & k & -> & Hk & Hm).
  simpl Float.format_plus_1f. rewrite (tenths_exact m k (Z.abs n)) by (lia || done).
  rewrite Z.mul_comm, Z.div_mul, Z.mod_mul by lia. done.
Qed.

End SmallIntegers.

Section Limits.

Lemma int_limit_large : 2 ^ 53 < Float.int_limit.
Proof. vm_compute. reflexivity. Qed.

Lemma of_int_overflow (n : Z) :
  Float.int_limit ≤ Z.abs n →
  Float.of_int n = Raise (Exn OverflowError (lit "int too large to convert to float")).
Proof.
  intros H. unfold Float.of_int.
  destruct (Z.leb_spec Float.int_limit (Z.abs n)); [done|lia].
Qed.

(** The unit the loop ends on is the one it started on or a larger one. *)
End Limits.

(** X6.  [format_bytes] raises exactly on the integers that do not
    convert to [float], those of magnitude [2^1024 - 2^970] or more, and
    what it raises is [OverflowError]. *)
Theorem format_bytes_overflow (n : Z) :
  (Float.int_limit ≤ Z.abs n →
   format_bytes n = Raise (Exn OverflowError (lit "int too large to convert to float")))
  ∧ (Z.abs n < Float.int_limit → ∃ s, format_bytes n = Ok s).
Proof.
  pose proof int_limit_large as Hl. split; intros Hn.
  - unfold format_bytes. destruct (Z.eqb_spec n 0) as [->|_]; [simpl in Hn; lia|].
    destruct (Z.ltb_spec n 0).
    + rewrite scale_negative by done. rewrite bind_Ok. simpl as_float.
      by rewrite of_int_overflow.
    + simpl scale. destruct (Z.leb_spec 1024 n); [|lia].
      by rewrite of_int_overflow.
  - by apply format_bytes_ok.
Qed.

Lemma format_bytes_overflow_witness :
  format_bytes (2 ^ 1024)
  = Raise (Exn OverflowError (lit "int too large to convert to float"))
  ∧ ∃ s, format_bytes (2 ^ 1023) = Ok s.
Proof.
  split.
  - apply (proj1 (format_bytes_overflow (2 ^ 1024))). vm_compute. discriminate.
  - apply (proj2 (format_bytes_overflow (2 ^ 1023))). vm_compute. reflexivity.
Defined.

(** X7.  A negative size is never scaled: whatever its magnitude (below
    [2^53]), it is printed in bytes, as [-<digits>.0 B]. *)
Theorem format_bytes_negative (n : Z) :
  - 2 ^ 53 < n < 0 →
  format_bytes n = Ok (lit "-" ++ Float.decimal_digits (- n) ++ lit ".0 B").
Proof.
  intros Hn. pose proof int_limit_large as Hl. unfold format_bytes.
  destruct (Z.eqb_spec n 0); [lia|].
  rewrite scale_negative, bind_Ok by lia. simpl as_float.
  rewrite of_int_ok, bind_Ok by lia.
  rewrite format_small_integer by lia.
  destruct (Z.ltb_spec n 0); [|lia].
  replace (Z.abs n) with (- n) by lia.
  simpl. rewrite <- app_assoc. reflexivity.
Qed.

Lemma format_bytes_negative_witness :
  format_bytes (-1048576) = Ok (lit "-1048576.0 B").
Proof.
  apply (format_bytes_negative (-1048576)). vm_compute. split; reflexivity.
Defined.

(** X8.  A positive size below 1024 is printed in bytes, unscaled, as
    [+<digits>.0 B]. *)
Theorem format_bytes_below_1024 (n : Z) :
  0 < n < 1024 →
  format_bytes n = Ok (lit "+" ++ Float.decimal_digits n ++ lit ".0 B").
Proof.
  intros Hn. pose proof int_limit_large as Hl. unfold format_bytes.
  destruct (Z.eqb_spec n 0); [lia|].
  simpl scale. destruct (Z.leb_spec 1024 n); [lia|]. rewrite bind_Ok.
  simpl as_float. rewrite of_int_ok, bind_Ok by lia.
  rewrite format_small_integer by lia.
  destruct (Z.ltb_spec n 0); [lia|].
  replace (Z.abs n) with n by lia.
  simpl. rewrite <- app_assoc. reflexivity.
Qed.

Lemma format_bytes_below_1024_witness :
  format_bytes 1023 = Ok (lit "+1023.0 B").
Proof.
  apply (format_bytes_below_1024 1023). vm_compute. split; reflexivity.
Defined.

(** X9.  What [format_bytes] returns has no whitespace at either end,
    so that [strip] leaves it as it is, and it ends with a space and one
    of the five unit tokens. *)
Theorem format_bytes_shape (n : Z) (s : str) :
  format_bytes n = Ok s →
  strip s = s ∧ ∃ body u, s = body ++ [SP] ++ u ∧ In u Re.units.
Proof.
  intros Hs. split; [by apply (format_bytes_stripped n)|].
  revert Hs. unfold format_bytes. destruct (n =? 0).
  { intros [= <-]. exists (lit "0"), (lit "B"). split; [reflexivity|by left]. }
  destruct (scale _ _ _) as [[v unit]|e] eqn:Hsc; [|done]. rewrite bind_Ok.
  destruct (as_float v) as [x|e]; [|done]. rewrite bind_Ok. intros [= <-].
  exists (Float.format_plus_1f x), unit. split; [done|].
  apply scale_unit in Hsc as [->|H]; [by left|]. right. exact H.
Qed.

Lemma format_bytes_shape_witness :
  strip (lit "+117.7 MB") = lit "+117.7 MB".
Proof.
  apply (format_bytes_shape 123456789). vm_compute. reflexivity.
Defined.

Section RoundTrip.

Lemma decodes_back_all :
  forallb decodes_back (seqZ (-1023) 2047) = true.
Proof. vm_compute. reflexivity. Qed.

End RoundTrip.

(** X10.  For a size of magnitude below 1024, decoding the text
    [format_bytes] returns gives the magnitude back: the size itself
    when it is not negative, and its opposite when it is, since the
    pattern passes over the sign. *)
Theorem format_then_parse (n : Z) :
  -1024 < n < 1024 →
  ∃ s, format_bytes n = Ok s ∧ parse_size_to_bytes s = Ok (Z.abs n).
Proof.
  intros Hn. pose proof decodes_back_all as H.
  rewrite forallb_forall in H. specialize (H n).
  unfold decodes_back in H.
  destruct (format_bytes n) as [s|]; [|discriminate H; apply list_elem_of_In, elem_of_seqZ; lia].
  exists s. split; [done|].
  destruct (parse_size_to_bytes s) as [v|]; [|discriminate H; apply list_elem_of_In, elem_of_seqZ; lia].
  f_equal. apply Z.eqb_eq, H, list_elem_of_In, elem_of_seqZ. lia.
Qed.

Lemma format_then_parse_witness :
  ∃ s, format_bytes (-512) = Ok s ∧ parse_size_to_bytes s = Ok 512.
Proof.
  apply (format_then_parse (-512)). vm_compute. split; reflexivity.
Defined.

(** ** Well-formed lines *)

(** A concrete character is none of the listed ones. *)
Ltac not_listed :=
  let H := fresh in
  intros H; repeat (apply elem_of_cons in H as [H|H]; [discriminate H|]);
  by apply elem_of_nil in H.

Section TreeFields.

Lemma replace_absent (h : N) (old new s : str) :
  Forall (λ c, c ≠ h) s → replace (h :: old) new s = s.
Proof.
  intros H. rewrite <- (app_nil_r s) at 1. rewrite replace_other by done.
  by rewrite app_nil_r.
Qed.

Lemma plain_name_heads (name : str) (h : N) :
  plain_name name → h ∈ glyph_heads → Forall (λ c, c ≠ h) name.
Proof.
  intros [H _] Hh. eapply Forall_impl; [exact H|]. intros c Hc ->. done.
Qed.

Lemma plain_name_strip (name : str) : plain_name name → strip name = name.
Proof.
  intros (_ & (c & Hc & Hsp) & (d & Hd & Hsd)).
  destruct name as [|c' name]; [done|]. injection Hc as ->.
  unfold strip, lstrip. rewrite lstrip_with_head by done.
  apply last_Some in Hd as [body ->]. unfold rstrip. by rewrite rstrip_with_last.
Qed.

Lemma name_of_plain (name : str) : plain_name name → name_of name = name.
Proof.
  intros H. unfold name_of, TEE, ELL, BAR.
  rewrite (replace_absent 9500 _ _ name), (replace_absent 9492 _ _ name),
    (replace_absent 9474 _ _ name); [by apply plain_name_strip|..];
    apply plain_name_heads; try done; unfold glyph_heads; repeat constructor.
Qed.

Lemma indent_count_plain (name : str) : plain_name name → indent_count name = 0%nat.
Proof.
  intros H. unfold indent_count, indent_content, TEE, ELL, BAR.
  rewrite (replace_absent 9500 _ _ name), (replace_absent 9492 _ _ name),
    (replace_absent 9474 _ _ name);
    try (apply plain_name_heads; try done; unfold glyph_heads; repeat constructor).
  destruct H as (_ & (c & Hc & Hsp) & _).
  destruct name as [|c' name]; [done|]. injection Hc as ->.
  unfold lstrip_spaces. rewrite lstrip_with_head.
  - by rewrite Nat.sub_diag.
  - apply N.eqb_neq. intros <-. by vm_compute in Hsp.
Qed.

Lemma strip_indent (s : str) : strip (INDENT ++ s) = strip s.
Proof. reflexivity. Qed.

(** A unit of indentation leaves nothing in the name. *)
Lemma name_of_unit (u : indent_unit) (t : str) :
  name_of (unit_text u ++ t) = name_of t.
Proof.
  unfold name_of.
  assert (Hsp : ∀ h, h ≠ 32%N → Forall (λ c, c ≠ h) INDENT)
    by (intros h Hh; repeat constructor; done).
  destruct u; simpl unit_text; unfold TEE, ELL, BAR.
  - by rewrite replace_head.
  - rewrite replace_other by (repeat constructor; done). by rewrite replace_head.
  - rewrite !replace_other by (repeat constructor; done). by rewrite replace_head.
  - rewrite !replace_other by (by apply Hsp). apply strip_indent.
Qed.

Lemma name_of_prefixes (us : list indent_unit) (t : str) :
  name_of (prefixes us ++ t) = name_of t.
Proof.
  induction us as [|u us IH]; [done|]. unfold prefixes in *.
  change (concat (unit_text <$> u :: us)) with (unit_text u ++ concat (unit_text <$> us)).
  by rewrite <- app_assoc, name_of_unit.
Qed.

Lemma rstrip_with_drop (p : N → bool) (s : str) (c : N) :
  p c = true → rstrip_with p (s ++ [c]) = rstrip_with p s.
Proof.
  intros H. unfold rstrip_with. rewrite rev_app_distr. simpl. by rewrite H.
Qed.

(** The tree field of a line that ends with a plain name and a newline. *)
Lemma tree_part_plain (field pre name : str) :
  length field = 12%nat → plain_name name →
  tree_part (field ++ pre ++ name ++ [NL]) = pre ++ name.
Proof.
  intros Hlen (_ & _ & (d & Hd & Hsd)). unfold tree_part.
  rewrite <- Hlen, drop_app_length.
  apply last_Some in Hd as [body ->]. unfold rstrip.
  replace (pre ++ (body ++ [d]) ++ [NL]) with (((pre ++ body) ++ [d]) ++ [NL])
    by (by rewrite <- !app_assoc).
  rewrite rstrip_with_drop by done. rewrite rstrip_with_last by done.
  by rewrite <- app_assoc.
Qed.

Lemma lstrip_with_keeps (p : N → bool) (s : str) (c : N) :
  c ∈ s → p c = false → c ∈ lstrip_with p s.
Proof.
  induction s as [|x s IH]; [done|]. simpl. intros Hin Hc.
  destruct (p x) eqn:Hx; [|done].
  apply elem_of_cons in Hin as [->|Hin]; [congruence|auto].
Qed.

(** A line that holds a character other than whitespace is retained. *)
Lemma retained_by_char (line : str) (c : N) :
  c ∈ line → is_space c = false → retained line.
Proof.
  intros Hin Hc. unfold retained, strip, rstrip, rstrip_with, lstrip.
  assert (c ∈ lstrip_with is_space line) as H1 by (by apply lstrip_with_keeps).
  assert (c ∈ lstrip_with is_space (rev (lstrip_with is_space line))) as H2
    by (apply lstrip_with_keeps; [|done]; apply list_elem_of_In, in_rev;
        rewrite rev_involutive; by apply list_elem_of_In).
  intros E. apply (f_equal (@rev N)) in E. rewrite rev_involutive in E. simpl in E.
  rewrite E in H2. by apply elem_of_nil in H2.
Qed.

End TreeFields.

(** X11.  For a well-formed tree field, [k] units of indentation (glyph
    sequences or four spaces) followed by a plain name, the decoded
    depth is [k] and the decoded name is the name. *)
Theorem tree_field_decoding (us : list indent_unit) (name : str) :
  plain_name name →
  indent_count (prefixes us ++ name) = length us
  ∧ name_of (prefixes us ++ name) = name.
Proof.
  intros H. split.
  - rewrite indent_count_prefixes, indent_count_plain by done. lia.
  - by rewrite name_of_prefixes, name_of_plain.
Qed.

Lemma tree_field_decoding_witness :
  indent_count (BAR ++ INDENT ++ ELL ++ lit "my notes.txt") = 3%nat
  ∧ name_of (BAR ++ INDENT ++ ELL ++ lit "my notes.txt") = lit "my notes.txt".
Proof.
  apply (tree_field_decoding [Bar; Blank; Ell] (lit "my notes.txt")).
  split; [|split].
  - repeat constructor; not_listed.
  - by eexists.
  - by eexists.
Defined.

(** X12.  A well-formed line, a size field of 12 characters that
    decodes, [k] units of indentation, a plain name and a newline, is
    retained; it leaves the first [k] entries of the path stack followed
    by the name, and records the size under these joined with [/]. *)
Theorem process_line_well_formed (st : parser) (field : str)
    (us : list indent_unit) (name : str) (size_bytes : Z) :
  length field = 12%nat → plain_name name →
  parse_size_to_bytes field = Ok size_bytes →
  process_line st (field ++ prefixes us ++ name ++ [NL])
  = Ok (Parser (take (length us) (path_stack st) ++ [name])
          (<[join SLASH (take (length us) (path_stack st) ++ [name]) := size_bytes]>
             (snapshot st))).
Proof.
  intros Hlen Hname Hsize.
  pose proof (tree_part_plain field (prefixes us) name Hlen Hname) as Ht.
  rewrite (process_line_retained st _ size_bytes).
  - rewrite Ht, indent_count_prefixes, indent_count_plain, name_of_prefixes,
      name_of_plain by done.
    by rewrite Nat.add_0_r.
  - destruct Hname as (_ & (c & Hc & Hsp) & _).
    apply (retained_by_char _ c); [|done].
    destruct name as [|c' name]; [done|]. injection Hc as ->.
    rewrite !elem_of_app. right. right. left. left.
  - unfold size_part. by rewrite <- Hlen, take_app_length.
Qed.

Lemma process_line_well_formed_witness :
  process_line (Parser [lit "root"; lit "src"; lit "old"] ∅)
    (lit "[  2.0 KB ] " ++ prefixes [Bar; Tee] ++ lit "main.py" ++ [NL])
  = Ok (Parser [lit "root"; lit "src"; lit "main.py"]
          (<[lit "root/src/main.py" := 2048]> ∅)).
Proof.
  apply (process_line_well_formed (Parser [lit "root"; lit "src"; lit "old"] ∅)
           (lit "[  2.0 KB ] ") [Bar; Tee] (lit "main.py") 2048).
  - reflexivity.
  - split; [|split].
    + repeat constructor; not_listed.
    + by eexists.
    + by eexists.
  - vm_compute. reflexivity.
Defined.

(** ** Loading a snapshot *)

Section Lines.

Lemma readlines_from_line (cur l rest : str) :
  NL ∉ l →
  readlines_from cur (l ++ NL :: rest) = (cur ++ l ++ [NL]) :: readlines_from [] rest.
Proof.
  revert cur. induction l as [|c l IH]; intros cur Hl; simpl.
  - done.
  - apply not_elem_of_cons in Hl as [Hc Hl].
    destruct (N.eqb_spec c NL) as [->|_]; [done|].
    rewrite IH by done. by rewrite <- app_assoc.
Qed.

Lemma readlines_header (h1 h2 body : str) :
  NL ∉ h1 → NL ∉ h2 →
  drop 2 (readlines (h1 ++ NL :: h2 ++ NL :: body)) = readlines body.
Proof.
  intros H1 H2. unfold readlines.
  rewrite readlines_from_line by done. simpl drop.
  rewrite readlines_from_line by done. done.
Qed.

Lemma join_snoc (sep : str) (l : list str) (x : str) :
  l ≠ [] → join sep (l ++ [x]) = join sep l ++ sep ++ x.
Proof.
  induction l as [|y l IH]; [done|]. intros _.
  destruct l as [|z l]; [done|].
  change (join sep ((y :: z :: l) ++ [x])) with (y ++ sep ++ join sep ((z :: l) ++ [x])).
  rewrite IH by done.
  change (join sep (y :: z :: l)) with (y ++ sep ++ join sep (z :: l)).
  by rewrite <- !app_assoc.
Qed.

(** Where the entries of a snapshot come from. *)
Lemma process_lines_provenance (st st' : parser) (lines : list str) (k : str) (v : Z) :
  process_lines st lines = Ok st' → snapshot st' !! k = Some v →
  snapshot st !! k = Some v
  ∨ ∃ line stack, line ∈ lines ∧ retained line
      ∧ parse_size_to_bytes (size_part line) = Ok v
      ∧ k = join SLASH (stack ++ [name_of (tree_part line)]).
Proof.
  revert st. induction lines as [|line lines IH]; intros st; simpl.
  - intros [= <-]. by left.
  - destruct (process_line st line) as [st1|] eqn:E; [|done]. rewrite bind_Ok.
    intros Hrest Hk. destruct (IH _ Hrest Hk) as [H1|(l & stack & Hl & H)].
    + destruct (decide (strip line = [])) as [Hb|Hr].
      * rewrite process_line_blank in E by done. injection E as <-. by left.
      * destruct (parse_size_to_bytes (size_part line)) as [s|e] eqn:Hs.
        -- rewrite (process_line_retained st line s Hr Hs) in E. injection E as <-.
           simpl in H1. destruct (decide (k = join SLASH
               (take (indent_count (tree_part line)) (path_stack st)
                ++ [name_of (tree_part line)]))) as [->|Hne].
           ++ rewrite lookup_insert_eq in H1. injection H1 as ->.
              right. exists line, (take (indent_count (tree_part line)) (path_stack st)).
              split_and!; [left|done|done|done].
           ++ rewrite lookup_insert_ne in H1 by done. by left.
        -- by rewrite (process_line_raises st line e Hr Hs) in E.
    + right. exists l, stack. split; [by right|done].
Qed.

Lemma process_lines_size (st st' : parser) (lines : list str) :
  process_lines st lines = Ok st' →
  (size (snapshot st') ≤ size (snapshot st) + length (retained_lines lines))%nat.
Proof.
  revert st. induction lines as [|line lines IH]; intros st; simpl.
  - intros [= <-]. lia.
  - destruct (process_line st line) as [st1|] eqn:E; [|done]. rewrite bind_Ok.
    intros H%IH. unfold retained_lines in *. rewrite filter_cons.
    destruct (decide (retained line)) as [Hr|Hb].
    + destruct (parse_size_to_bytes (size_part line)) as [s|e] eqn:Hs.
      * rewrite (process_line_retained st line s Hr Hs) in E. injection E as <-.
        simpl in H. simpl length.
        pose proof (map_size_insert (join SLASH
          (take (indent_count (tree_part line)) (path_stack st)
           ++ [name_of (tree_part line)])) s (snapshot st)) as Hi.
        destruct (snapshot st !! _); unfold id in Hi; simpl in Hi |- *; lia.
      * by rewrite (process_line_raises st line e Hr Hs) in E.
    + rewrite process_line_blank in E by (by apply dec_stable). injection E as <-. lia.
Qed.

End Lines.

(** X13.  Blank lines change nothing: the lines with the blank ones
    removed leave the same path stack and the same snapshot, or raise
    the same exception. *)
Theorem process_lines_skip_blank (st : parser) (lines : list str) :
  process_lines st (retained_lines lines) = process_lines st lines.
Proof.
  revert st. unfold retained_lines.
  induction lines as [|line lines IH]; intros st; [done|].
  rewrite filter_cons. destruct (decide (retained line)) as [Hr|Hb].
  - simpl. destruct (process_line st line); [|done]. rewrite !bind_Ok. apply IH.
  - simpl. rewrite process_line_blank by (by apply dec_stable). rewrite bind_Ok. apply IH.
Qed.

(** X14.  A file of at most two lines loads as the empty snapshot,
    whatever the two lines hold: they are the header. *)
Theorem read_snapshot_header_only (w : world) (file_path text : str) :
  w file_path = Ok text → (length (readlines text) ≤ 2)%nat →
  read_snapshot w file_path = Ok ∅.
Proof.
  intros Hw Hlen. unfold read_snapshot. rewrite Hw, bind_Ok.
  by rewrite drop_ge.
Qed.

Lemma read_snapshot_header_only_witness :
  read_snapshot (λ _, Ok (lit "[ 1.2.3 B ] x" ++ [NL] ++ lit "..B")) (lit "a.txt") = Ok ∅.
Proof.
  apply (read_snapshot_header_only _ _ (lit "[ 1.2.3 B ] x" ++ [NL] ++ lit "..B")).
  - reflexivity.
  - vm_compute. lia.
Defined.

(** X15.  The first two lines of a file play no part: the snapshot is
    the one that the lines after them give, starting from an empty path
    stack. *)
Theorem read_snapshot_ignores_header (w : world) (file_path h1 h2 body : str) :
  NL ∉ h1 → NL ∉ h2 →
  w file_path = Ok (h1 ++ NL :: h2 ++ NL :: body) →
  read_snapshot w file_path
  = st ← process_lines (Parser [] ∅) (readlines body); Ok (snapshot st).
Proof.
  intros H1 H2 Hw. unfold read_snapshot. rewrite Hw, bind_Ok.
  by rewrite readlines_header.
Qed.

Lemma read_snapshot_ignores_header_witness :
  read_snapshot (λ _, Ok (lit "[ 9.9 TB ] x" ++ NL :: lit "..B" ++ NL :: lit "[ 1.0 KB ] root"))
    (lit "a.txt")
  = st ← process_lines (Parser [] ∅) (readlines (lit "[ 1.0 KB ] root")); Ok (snapshot st).
Proof.
  apply (read_snapshot_ignores_header _ _ (lit "[ 9.9 TB ] x") (lit "..B")).
  - not_listed.
  - not_listed.
  - reflexivity.
Defined.

(** X16.  Nothing in a loaded snapshot is made up: every entry holds
    the size decoded from the size field of a retained line under the
    header, a size between 0 and the largest float, and its key ends
    with the name decoded from that line. *)
Theorem read_snapshot_provenance (w : world) (file_path : str)
    (snap : gmap str Z) (k : str) (v : Z) :
  read_snapshot w file_path = Ok snap → snap !! k = Some v →
  ∃ text line stack,
    w file_path = Ok text ∧ line ∈ drop 2 (readlines text) ∧ retained line
    ∧ parse_size_to_bytes (size_part line) = Ok v
    ∧ k = join SLASH (stack ++ [name_of (tree_part line)])
    ∧ 0 ≤ v ≤ max_size.
Proof.
  unfold read_snapshot. destruct (w file_path) as [text|]; [|done]. rewrite bind_Ok.
  destruct (process_lines _ _) as [st|] eqn:E; [|done]. rewrite bind_Ok.
  intros [= <-] Hk.
  destruct (process_lines_provenance _ _ _ _ _ E Hk) as [H|(line & stack & Hl & Hr & Hs & ->)].
  - simpl in H. by rewrite lookup_empty in H.
  - exists text, line, stack. split_and!; try done; by eapply parse_size_range.
Qed.

Lemma read_snapshot_provenance_witness :
  ∃ text line stack,
    example_world (lit "old.txt") = Ok text ∧ line ∈ drop 2 (readlines text)
    ∧ retained line ∧ parse_size_to_bytes (size_part line) = Ok 512
    ∧ lit "root/child" = join SLASH (stack ++ [name_of (tree_part line)])
    ∧ 0 ≤ 512 ≤ max_size.
Proof.
  apply (read_snapshot_provenance example_world (lit "old.txt")
           (<[lit "root/child" := 512]> (<[lit "root" := 1024]> ∅))).
  - vm_compute. reflexivity.
  - vm_compute. reflexivity.
Defined.

(** X17.  A loaded snapshot has at most one entry for each retained
    line under the header. *)
Theorem read_snapshot_size (w : world) (file_path text : str) (snap : gmap str Z) :
  w file_path = Ok text → read_snapshot w file_path = Ok snap →
  (size snap ≤ length (retained_lines (drop 2 (readlines text))))%nat.
Proof.
  intros Hw. unfold read_snapshot. rewrite Hw, bind_Ok.
  destruct (process_lines _ _) as [st|] eqn:E; [|done]. rewrite bind_Ok.
  intros [= <-]. apply process_lines_size in E. simpl snapshot in E at 2.
  by rewrite map_size_empty in E.
Qed.

Lemma read_snapshot_size_witness :
  (size (<[lit "root/child" := 512%Z]> (<[lit "root" := 1024%Z]> (∅ : gmap str Z)))
   ≤ length (retained_lines (drop 2 (readlines example_old))))%nat.
Proof.
  apply (read_snapshot_size example_world (lit "old.txt")).
  - reflexivity.
  - vm_compute. reflexivity.
Defined.

(** X18.  Two retained lines whose size fields both decode, with the
    same tree field, at a depth the path stack reaches: the second
    overwrites the entry of the first, and the two leave what the
    second alone leaves. *)
Theorem process_line_overwrites (st : parser) (line1 line2 : str) (v1 v2 : Z) :
  retained line1 → retained line2 →
  tree_part line1 = tree_part line2 →
  parse_size_to_bytes (size_part line1) = Ok v1 →
  parse_size_to_bytes (size_part line2) = Ok v2 →
  (indent_count (tree_part line1) ≤ length (path_stack st))%nat →
  (st1 ← process_line st line1; process_line st1 line2) = process_line st line2.
Proof.
  intros Hr1 Hr2 Ht Hs1 Hs2 Hd.
  rewrite (process_line_retained st line1 v1 Hr1 Hs1), bind_Ok.
  rewrite (process_line_retained _ line2 v2 Hr2 Hs2).
  rewrite (process_line_retained st line2 v2 Hr2 Hs2).
  rewrite <- Ht. simpl path_stack. simpl snapshot.
  rewrite take_app_length' by (rewrite length_take; lia).
  by rewrite insert_insert_eq.
Qed.

Lemma process_line_overwrites_witness :
  (st1 ← process_line (Parser [lit "root"] ∅) (lit "[   1.0 KB] " ++ ELL ++ lit "a" ++ [NL]);
   process_line st1 (lit "[   2.0 KB] " ++ ELL ++ lit "a" ++ [NL]))
  = process_line (Parser [lit "root"] ∅) (lit "[   2.0 KB] " ++ ELL ++ lit "a" ++ [NL]).
Proof.
  apply (process_line_overwrites _ _ _ 1024 2048).
  - vm_compute. discriminate.
  - vm_compute. discriminate.
  - vm_compute. reflexivity.
  - vm_compute. reflexivity.
  - vm_compute. reflexivity.
  - vm_compute. lia.
Defined.

(** X19.  A retained line whose size field decodes, one level below
    the top of a non-empty path stack, is pushed on the stack, and its
    key is the stack joined with [/], a [/] and its name: the key of
    its parent, extended. *)
Theorem process_line_child (st : parser) (line : str) (size_bytes : Z) :
  retained line →
  parse_size_to_bytes (size_part line) = Ok size_bytes →
  path_stack st ≠ [] →
  indent_count (tree_part line) = length (path_stack st) →
  process_line st line
  = Ok (Parser (path_stack st ++ [name_of (tree_part line)])
          (<[join SLASH (path_stack st) ++ SLASH ++ name_of (tree_part line)
             := size_bytes]> (snapshot st))).
Proof.
  intros Hr Hs Hne Hd.
  rewrite (process_line_retained st line size_bytes Hr Hs).
  rewrite Hd, firstn_all. by rewrite join_snoc.
Qed.

Lemma process_line_child_witness :
  process_line (Parser [lit "root"; lit "src"] ∅)
    (lit "[   1.0 KB] " ++ BAR ++ ELL ++ lit "a.py" ++ [NL])
  = Ok (Parser [lit "root"; lit "src"; lit "a.py"]
          (<[lit "root/src/a.py" := 1024]> ∅)).
Proof.
  apply (process_line_child (Parser [lit "root"; lit "src"] ∅)
           (lit "[   1.0 KB] " ++ BAR ++ ELL ++ lit "a.py" ++ [NL]) 1024).
  - vm_compute. discriminate.
  - vm_compute. reflexivity.
  - discriminate.
  - vm_compute. reflexivity.
Defined.

(** X20.  On an empty path stack a retained line whose size field
    decodes is recorded under its name alone, whatever its depth. *)
Theorem process_line_first (snap : gmap str Z) (line : str) (size_bytes : Z) :
  retained line →
  parse_size_to_bytes (size_part line) = Ok size_bytes →
  process_line (Parser [] snap) line
  = Ok (Parser [name_of (tree_part line)]
          (<[name_of (tree_part line) := size_bytes]> snap)).
Proof.
  intros Hr Hs. rewrite (process_line_retained _ line size_bytes Hr Hs).
  simpl path_stack. by rewrite take_nil.
Qed.

Lemma process_line_first_witness :
  process_line (Parser [] ∅) orphan_line
  = Ok (Parser [lit "child"] (<[lit "child" := 512]> ∅)).
Proof.
  apply (process_line_first ∅ orphan_line 512).
  - vm_compute. discriminate.
  - vm_compute. reflexivity.
Defined.

(** ** The records of a diff *)

Section Records.

Implicit Types old new m : gmap str Z.

(** What the three lists hold, and nothing else. *)
Lemma diff_record_iff old new :
  ∃ c, diff old new = Ok c
    ∧ (∀ p s, (p, s) ∈ added c ↔ old !! p = None ∧ new !! p = Some s)
    ∧ (∀ p s, (p, s) ∈ removed c ↔ old !! p = Some s ∧ new !! p = None)
    ∧ (∀ p d s, (p, d, s) ∈ changed c
         ↔ ∃ o, old !! p = Some o ∧ new !! p = Some s ∧ d = s - o ∧ d ≠ 0).
Proof.
  eexists. split; [apply diff_omap|]. simpl. split_and!.
  - intros p s. rewrite list_elem_of_omap. split.
    + intros (q & _ & Hq). unfold added_record in Hq.
      destruct (old !! q) eqn:Ho, (new !! q) eqn:Hn; simplify_eq. done.
    + intros [Ho Hn]. exists p. split.
      * apply elem_of_all_paths, elem_of_union_r, elem_of_dom. by eexists.
      * unfold added_record. by rewrite Ho, Hn.
  - intros p s. rewrite list_elem_of_omap. split.
    + intros (q & _ & Hq). unfold removed_record in Hq.
      destruct (old !! q) eqn:Ho, (new !! q) eqn:Hn; simplify_eq. done.
    + intros [Ho Hn]. exists p. split.
      * apply elem_of_all_paths, elem_of_union_l, elem_of_dom. by eexists.
      * unfold removed_record. by rewrite Ho, Hn.
  - intros p d s. rewrite list_elem_of_omap. split.
    + intros (q & _ & Hq). unfold changed_record in Hq.
      destruct (old !! q) as [o|] eqn:Ho, (new !! q) as [n|] eqn:Hn; try done.
      case_bool_decide; [|done]. injection Hq as <- <- <-. by exists o.
    + intros (o & Ho & Hn & -> & Hd). exists p. split.
      * apply elem_of_all_paths, elem_of_union_l, elem_of_dom. by eexists.
      * unfold changed_record. by rewrite Ho, Hn, bool_decide_eq_true_2.
Qed.

Lemma omap_all_None {A B} (f : A → option B) (l : list A) :
  (∀ x, f x = None) → omap f l = [].
Proof. intros H. induction l as [|x l IH]; [done|]. simpl. by rewrite H. Qed.

Lemma filter_all {A} (P : A → Prop) `{!∀ x, Decision (P x)} (l : list A) :
  Forall P l → filter P l = l.
Proof.
  induction 1 as [|x l Hx _ IH]; [done|].
  rewrite filter_cons, decide_True by done. by rewrite IH.
Qed.

(** The keys of the lists of a diff are not repeated. *)
Lemma diff_keys_NoDup old new c :
  diff old new = Ok c →
  NoDup (added c).*1 ∧ NoDup (removed c).*1 ∧ NoDup (changed_size <$> changed c).*1.
Proof.
  intros Hc. destruct (diff_paths old new) as (c' & Hc' & Ha & Hr & Hch).
  rewrite Hc in Hc'. injection Hc' as <-.
  pose proof (all_paths_NoDup old new) as Hn.
  split_and!.
  - change ((added c).*1) with (paths2 (added c)). rewrite Ha. by apply NoDup_filter.
  - change ((removed c).*1) with (paths2 (removed c)). rewrite Hr. by apply NoDup_filter.
  - rewrite <- list_fmap_compose.
    change (fst ∘ changed_size <$> changed c) with (paths3 (changed c)).
    rewrite Hch. by apply NoDup_filter.
Qed.

Lemma diff_refl m : diff m m = Ok (Changes [] [] []).
Proof.
  rewrite diff_omap. f_equal. f_equal.
  - apply omap_all_None. intros p. unfold added_record. by destruct (m !! p).
  - apply omap_all_None. intros p. unfold removed_record. by destruct (m !! p).
  - apply omap_all_None. intros p. unfold changed_record.
    destruct (m !! p); [|done]. rewrite bool_decide_eq_false_2; [done|lia].
Qed.

End Records.

(** X21.  The three lists hold the records of the four cases and
    nothing else: a record is in [added] exactly when its path is only
    in the new snapshot, with its size there; in [removed] exactly when
    its path is only in the old one, with its size there; in [changed]
    exactly when its path is in both with different sizes, with their
    difference, which is not 0, and the new size. *)
Theorem diff_records (old new : gmap str Z) :
  ∃ c, diff old new = Ok c
    ∧ (∀ p s, (p, s) ∈ added c ↔ old !! p = None ∧ new !! p = Some s)
    ∧ (∀ p s, (p, s) ∈ removed c ↔ old !! p = Some s ∧ new !! p = None)
    ∧ (∀ p d s, (p, d, s) ∈ changed c
         ↔ ∃ o, old !! p = Some o ∧ new !! p = Some s ∧ d = s - o ∧ d ≠ 0).
Proof. apply diff_record_iff. Qed.

(** X22.  A snapshot compared with itself gives three empty lists. *)
Theorem diff_same (m : gmap str Z) : diff m m = Ok (Changes [] [] []).
Proof. apply diff_refl. Qed.

(** X23.  Against an empty old snapshot every entry of the new one is
    added, in ascending order of path, and nothing is removed or
    changed; against an empty new snapshot every entry of the old one
    is removed, in the same way. *)
Theorem diff_with_empty (m : gmap str Z) :
  (∃ l, diff ∅ m = Ok (Changes l [] [])
     ∧ list_to_map l = m ∧ paths2 l = sorted (elements (dom m)))
  ∧ (∃ l, diff m ∅ = Ok (Changes [] l [])
     ∧ list_to_map l = m ∧ paths2 l = sorted (elements (dom m))).
Proof.
  assert (Hall : ∀ l : list (str * Z),
    NoDup l.*1 → (∀ p s, (p, s) ∈ l ↔ m !! p = Some s) → list_to_map l = m).
  { intros l Hnd Hl. apply map_eq. intros i.
    destruct (m !! i) as [v|] eqn:E.
    - apply elem_of_list_to_map; [done|]. by apply Hl.
    - apply not_elem_of_list_to_map_1. intros ([p s] & -> & Hin)%list_elem_of_fmap.
      apply Hl in Hin. simpl in E. congruence. }
  assert (Hkeys : ∀ f : str → option (str * Z),
    (∀ p r, f p = Some r → r.1 = p) →
    (∀ p, p ∈ dom m → is_Some (f p)) →
    paths2 (omap f (sorted (elements (dom m)))) = sorted (elements (dom m))).
  { intros f Hf Hs. rewrite paths2_omap by done.
    apply filter_all, Forall_forall. intros p Hp. apply Hs.
    unfold sorted in Hp. rewrite merge_sort_Permutation in Hp.
    by apply elem_of_elements in Hp. }
  split.
  - destruct (diff_record_iff ∅ m) as (c & Hc & Ha & _).
    pose proof (diff_keys_NoDup _ _ _ Hc) as (Hnd & _ & _).
    rewrite diff_omap in Hc. injection Hc as <-. simpl in *.
    eexists. split; [rewrite diff_omap; f_equal; f_equal|split].
    + apply omap_all_None. intros p. unfold removed_record. by rewrite lookup_empty.
    + apply omap_all_None. intros p. unfold changed_record. by rewrite lookup_empty.
    + apply Hall; [done|]. intros p s. rewrite Ha, lookup_empty. split; [by intros [_ ?]|by split].
    + unfold all_paths. rewrite dom_empty_L, (left_id_L ∅ (∪)).
      apply Hkeys; [apply added_record_path|].
      intros p [v Hv]%elem_of_dom. unfold added_record.
      rewrite lookup_empty, Hv. by eexists.
  - destruct (diff_record_iff m ∅) as (c & Hc & _ & Hr & _).
    pose proof (diff_keys_NoDup _ _ _ Hc) as (_ & Hnd & _).
    rewrite diff_omap in Hc. injection Hc as <-. simpl in *.
    eexists. split; [rewrite diff_omap; f_equal; f_equal|split].
    + apply omap_all_None. intros p. unfold added_record. rewrite lookup_empty.
      by destruct (m !! p).
    + apply omap_all_None. intros p. unfold changed_record. rewrite lookup_empty.
      by destruct (m !! p).
    + apply Hall; [done|]. intros p s. rewrite Hr, lookup_empty. split; [by intros [? _]|by split].
    + unfold all_paths. rewrite dom_empty_L, (right_id_L ∅ (∪)).
      apply Hkeys; [apply removed_record_path|].
      intros p [v Hv]%elem_of_dom. unfold removed_record.
      rewrite lookup_empty, Hv. by eexists.
Qed.

(** X24.  The report loses nothing: the old snapshot patched with the
    three lists is the new snapshot. *)
Theorem diff_then_patch (old new : gmap str Z) :
  ∃ c, diff old new = Ok c ∧ patch old c = new.
Proof.
  destruct (diff_record_iff old new) as (c & Hc & Ha & Hr & Hch).
  pose proof (diff_keys_NoDup _ _ _ Hc) as (Hna & Hnr & Hnc).
  exists c. split; [done|]. apply map_eq. intros i. unfold patch.
  set (A := list_to_map (added c) : gmap str Z).
  set (C := list_to_map (changed_size <$> changed c) : gmap str Z).
  assert (HA : ∀ s, A !! i = Some s
                    ↔ old !! i = None ∧ new !! i = Some s).
  { intros s. unfold A. rewrite <- elem_of_list_to_map by done. apply Ha. }
  assert (HC : ∀ s, C !! i = Some s
                    ↔ ∃ o, old !! i = Some o ∧ new !! i = Some s ∧ s - o ≠ 0).
  { intros s. unfold C. rewrite <- elem_of_list_to_map by done.
    rewrite list_elem_of_fmap. split.
    - intros ([[p d] s'] & [= -> ->] & Hin). apply Hch in Hin as (o & ? & ? & -> & ?).
      by exists o.
    - intros (o & Ho & Hn & Hd). exists (i, s - o, s). split; [done|].
      apply Hch. by exists o. }
  assert (HR : i ∈ paths2 (removed c) ↔ is_Some (old !! i) ∧ new !! i = None).
  { unfold paths2. rewrite list_elem_of_fmap. split.
    - intros ([p s] & -> & Hin). apply Hr in Hin as [? ?]. split; [by eexists|done].
    - intros [[s Hs] Hn]. exists (i, s). split; [done|]. by apply Hr. }
  destruct (new !! i) as [n|] eqn:Hn.
  - destruct (old !! i) as [o|] eqn:Ho.
    + destruct (decide (n - o = 0)) as [E|E].
      * apply lookup_union_Some_raw. right. split.
        -- apply lookup_union_None. split.
           ++ apply eq_None_not_Some; intros [s E1].
              apply HA in E1 as [? _]. done.
           ++ apply eq_None_not_Some; intros [s E2].
              apply HC in E2 as (o' & ? & ? & ?). simplify_eq; lia.
        -- apply map_lookup_filter_Some. split; [rewrite Ho; f_equal; lia|].
           simpl. rewrite HR. intros [_ ?]. done.
      * apply lookup_union_Some_raw. left. apply lookup_union_Some_raw. right. split.
        -- apply eq_None_not_Some; intros [s E1].
           apply HA in E1 as [? _]. done.
        -- apply HC. by exists o.
    + apply lookup_union_Some_raw. left. apply lookup_union_Some_raw. left.
      by apply HA.
  - apply lookup_union_None. split; [apply lookup_union_None; split|].
    + apply eq_None_not_Some; intros [s E1].
      apply HA in E1 as [_ ?]. done.
    + apply eq_None_not_Some; intros [s E2].
      apply HC in E2 as (o' & ? & ? & ?). done.
    + apply map_lookup_filter_None. destruct (old !! i) as [o|] eqn:Ho; [right|by left].
      intros x [= <-]. simpl. intros Hni. apply Hni, HR. split; [by eexists|done].
Qed.

(** ** The units of [format_bytes] *)

(** X25.  A size of 1024 or more that converts to [float] is divided at
    least once: what [format_bytes] returns ends with one of [KB], [MB],
    [GB] and [TB], never with the unit [B]. *)
Theorem format_bytes_scaled (n : Z) :
  1024 ≤ n → n < Float.int_limit →
  ∃ body u, format_bytes n = Ok (body ++ [SP] ++ u) ∧ In u larger_units.
Proof.
  intros Hlo Hhi. unfold format_bytes.
  destruct (Z.eqb_spec n 0) as [|_]; [lia|].
  change (scale [lit "KB"; lit "MB"; lit "GB"; lit "TB"] (Int n) (lit "B"))
    with (if 1024 <=? n
          then x ← Float.of_int n;
               scale [lit "MB"; lit "GB"; lit "TB"] (Flt (Float.div x f1024)) (lit "KB")
          else Ok (Int n, lit "B")).
  destruct (Z.leb_spec 1024 n) as [_|]; [|lia].
  rewrite of_int_ok by lia. rewrite bind_Ok.
  destruct (scale_positive [lit "MB"; lit "GB"; lit "TB"]
              (Flt (Float.div (Float.nearest n) f1024)) (lit "KB"))
    as (v' & unit' & Hsc & Hv').
  { simpl. unfold f1024. apply div_sign.
    replace false with (n <? 0) by (apply Z.ltb_ge; lia).
    apply nearest_sign; lia. }
  rewrite Hsc, bind_Ok.
  destruct (as_float_signed false v' Hv') as (x & -> & _). rewrite bind_Ok.
  exists (Float.format_plus_1f x), unit'. split; [done|].
  apply scale_unit in Hsc as [->|H]; [by left|]. right. exact H.
Qed.

Lemma format_bytes_scaled_witness :
  ∃ body u, format_bytes 1024 = Ok (body ++ [SP] ++ u) ∧ In u larger_units.
Proof. apply (format_bytes_scaled 1024); [lia|]. vm_compute. reflexivity. Defined.

(** ** The name of the report *)

Section Stem.

Lemma split_nonempty (sep : N) (s : str) : split sep s ≠ [].
Proof.
  destruct s as [|c s]; [done|]. simpl.
  destruct (c =? sep)%N; [done|]. by destruct (split sep s).
Qed.

Lemma split_app (sep : N) (a b : str) :
  split sep (a ++ sep :: b) = split sep a ++ split sep b.
Proof.
  induction a as [|c a IH]; simpl.
  - by rewrite N.eqb_refl.
  - destruct (c =? sep)%N; [by rewrite IH|].
    rewrite IH. pose proof (split_nonempty sep a).
    by destruct (split sep a).
Qed.

Lemma rfind_from_absent (c : N) (i : nat) (found : option nat) (s : str) :
  Forall (λ x, x ≠ c) s → rfind_from c i found s = found.
Proof.
  intros H. revert i. induction H as [|x s Hx _ IH]; intros i; [done|].
  simpl. apply N.eqb_neq in Hx. by rewrite Hx, IH.
Qed.

Lemma rfind_from_last (c : N) (i : nat) (found : option nat) (a b : str) :
  Forall (λ x, x ≠ c) b →
  rfind_from c i found (a ++ c :: b) = Some (i + length a)%nat.
Proof.
  intros Hb. revert i found. induction a as [|x a IH]; intros i found; simpl.
  - rewrite N.eqb_refl, rfind_from_absent by done. f_equal. lia.
  - rewrite IH. f_equal. lia.
Qed.

Lemma file_name_no_slash (base ext : str) :
  file_name base ext → Forall (λ c, c ≠ 47%N) (base ++ Float.DOT :: ext).
Proof.
  intros (_ & _ & Hb & He). apply Forall_app. split; [done|].
  constructor; [done|]. eapply Forall_impl; [exact He|]. by intros c [? _].
Qed.

Lemma file_name_kept (base ext : str) :
  file_name base ext →
  negb (str_eqb (base ++ Float.DOT :: ext) [])
  && negb (str_eqb (base ++ Float.DOT :: ext) (lit ".")) = true.
Proof.
  intros (Hb & He & _). unfold str_eqb.
  rewrite !bool_decide_eq_false_2; [done| |].
  - intros E. apply (f_equal length) in E. rewrite length_app in E. simpl in E.
    destruct base, ext; simpl in *; try done; lia.
  - by destruct base.
Qed.

Lemma in_dir_slash (d name : str) : in_dir (Some d) name = d ++ 47%N :: name.
Proof. reflexivity. Qed.

Lemma path_name_file (dir : option str) (base ext : str) :
  file_name base ext →
  path_name (in_dir dir (base ++ Float.DOT :: ext)) = base ++ Float.DOT :: ext.
Proof.
  intros H. destruct dir as [d|].
  - rewrite in_dir_slash. unfold path_name.
    rewrite split_app, (split_no_sep _ _ (file_name_no_slash _ _ H)).
    rewrite List.filter_app. simpl List.filter at 2.
    rewrite file_name_kept by done. apply last_last.
  - unfold in_dir, path_name.
    rewrite (split_no_sep _ _ (file_name_no_slash _ _ H)). simpl.
    by rewrite file_name_kept.
Qed.

Lemma stem_file (dir : option str) (base ext : str) :
  file_name base ext → stem (in_dir dir (base ++ Float.DOT :: ext)) = base.
Proof.
  intros H. unfold stem. rewrite path_name_file by done.
  destruct H as (Hb & He & _ & Hext).
  rewrite rfind_from_last
    by (eapply Forall_impl; [exact Hext|]; by intros c [_ ?]).
  simpl Nat.add. rewrite length_app. simpl length.
  assert (0 < length base)%nat by (destruct base; [done|simpl; lia]).
  assert (0 < length ext)%nat by (destruct ext; [done|simpl; lia]).
  destruct (Nat.ltb_spec 0 (length base)); [|lia].
  destruct (Nat.ltb_spec (length base) (length base + S (length ext) - 1)); [|lia].
  simpl. by rewrite take_app_length.
Qed.

End Stem.

(** X26.  The name of the report keeps, of each of the two paths, only
    the base of the file name: the directory and the last suffix are
    dropped, so that snapshots of the same base in different
    directories, or with different suffixes, are reported under the
    same name. *)
Theorem output_name_of_files (d1 d2 : option str) (b1 e1 b2 e2 : str) :
  file_name b1 e1 → file_name b2 e2 →
  output_name (in_dir d1 (b1 ++ Float.DOT :: e1)) (in_dir d2 (b2 ++ Float.DOT :: e2))
  = lit "diff_" ++ b1 ++ lit "_vs_" ++ b2 ++ lit ".txt".
Proof.
  intros H1 H2. unfold output_name. by rewrite !stem_file.
Qed.

Lemma output_name_of_files_witness :
  output_name (lit "runs/monday/tree.v1.txt") (lit "tree.log")
  = lit "diff_tree.v1_vs_tree.txt".
Proof.
  apply (output_name_of_files (Some (lit "runs/monday")) None
           (lit "tree.v1") (lit "txt") (lit "tree") (lit "log"));
    (split_and!; [done|done| |]; repeat constructor; done).
Defined.

(** ** The lines of the report *)

Section Report.

(** The text of a positive size starts with the sign [+], and [strip]
    keeps it. *)
Lemma format_bytes_plus (s : Z) :
  0 < s → s < Float.int_limit →
  ∃ rest, format_bytes s = Ok (lit "+" ++ rest) ∧ strip (lit "+" ++ rest) = lit "+" ++ rest.
Proof.
  intros Hpos Hlim.
  destruct (format_bytes_with_sign s) as [rest Hr]; [lia|lia|].
  destruct (Z.ltb_spec s 0) as [|_]; [lia|].
  exists rest. split; [exact Hr|]. by apply (format_bytes_stripped s).
Qed.


End Report.

(** X27.  The line of the report for an added path of positive size
    starts with [[++], and the line for a removed one with [[-+]: the
    text of [format_bytes] brings its own sign [+] after the mark of the
    section. *)
Theorem report_marks (old_file new_file : str) (c : changes) (p : str) (s : Z) :
  0 < s → s < Float.int_limit →
  ∃ rest, format_bytes s = Ok (lit "+" ++ rest)
    ∧ ((p, s) ∈ added c →
        Ok (lit "[++" ++ rest ++ lit "]  " ++ p ++ [NL])
          ∈ report_writes old_file new_file c)
    ∧ ((p, s) ∈ removed c →
        Ok (lit "[-+" ++ rest ++ lit "]  " ++ p ++ [NL])
          ∈ report_writes old_file new_file c).
Proof.
  intros Hpos Hlim. destruct (format_bytes_plus s Hpos Hlim) as (rest & Hf & Hs).
  exists rest. split; [exact Hf|]. unfold report_writes. split; intros Hin.
  - apply elem_of_app. right. apply elem_of_app. left.
    apply list_elem_of_fmap. exists (p, s). split; [|done].
    cbv beta iota. by rewrite Hf, bind_Ok, Hs.
  - apply elem_of_app. right. apply elem_of_app. right.
    apply elem_of_app. right. apply elem_of_app. left.
    apply list_elem_of_fmap. exists (p, s). split; [|done].
    cbv beta iota. by rewrite Hf, bind_Ok, Hs.
Qed.

Lemma report_marks_witness :
  ∃ rest, format_bytes 9 = Ok (lit "+" ++ rest)
    ∧ ((lit "root/new", 9) ∈ added (Changes [(lit "root/new", 9)] [] []) →
        Ok (lit "[++" ++ rest ++ lit "]  " ++ lit "root/new" ++ [NL])
          ∈ report_writes (lit "old.txt") (lit "new.txt")
              (Changes [(lit "root/new", 9)] [] []))
    ∧ ((lit "root/new", 9) ∈ removed (Changes [(lit "root/new", 9)] [] []) →
        Ok (lit "[-+" ++ rest ++ lit "]  " ++ lit "root/new" ++ [NL])
          ∈ report_writes (lit "old.txt") (lit "new.txt")
              (Changes [(lit "root/new", 9)] [] [])).
Proof.
  apply (report_marks (lit "old.txt") (lit "new.txt")
           (Changes [(lit "root/new", 9)] [] []) (lit "root/new") 9);
    [lia|vm_compute; reflexivity].
Defined.


